(** * PlanIt: a shallow embedding of the command-line scaffold

    The development covers the three Python modules of the repository:
    - [core/task.py]: the [Task] class, a data holder;
    - [cli.py]: [parse_cli], an [argparse] parser with two sub-commands;
    - [main.py]: [main], which dispatches on the parsed command.

    Python values are dynamically typed, so the fields of a task hold
    values of one sum type [pyval]. Exceptions are explicit: a fallible
    computation returns a [result], and a computation that also writes to
    the standard streams returns the events it emitted before it stopped. *)

From stdpp Require Import gmap strings list.
From Stdlib Require Import ZArith Ascii.

Set Warnings "-register-all".

Open Scope string_scope.
Open Scope Z_scope.

(** ** Python values, exceptions and effects *)

Module py.

(** A naive [datetime.datetime]: the seven calendar fields. *)
Record datetime := mk_datetime {
  year : Z; month : Z; day : Z;
  hour : Z; minute : Z; second : Z; microsecond : Z
}.

(** Naive datetimes are ordered field by field, most significant first. *)
Definition datetime_fields (d : datetime) : list Z :=
  [year d; month d; day d; hour d; minute d; second d; microsecond d].

Fixpoint lex_compare (a b : list Z) : comparison :=
  match a, b with
  | [], [] => Eq
  | [], _ :: _ => Lt
  | _ :: _, [] => Gt
  | x :: a', y :: b' =>
      match Z.compare x y with
      | Eq => lex_compare a' b'
      | c => c
      end
  end.

(** [a <= b] on datetimes. *)
Definition datetime_leb (a b : datetime) : bool :=
  match lex_compare (datetime_fields a) (datetime_fields b) with
  | Gt => false
  | _ => true
  end.

(** The values that occur in the program. *)
Inductive pyval :=
| PyNone
| PyBool (b : bool)
| PyInt (z : Z)
| PyStr (s : string)
| PyDatetime (d : datetime)
| PyList (l : list pyval).

(** [a == b]. A bool is an int; values of different kinds are unequal. *)
Fixpoint py_eq (a b : pyval) : bool :=
  match a, b with
  | PyNone, PyNone => true
  | PyBool x, PyBool y => Bool.eqb x y
  | PyBool x, PyInt y | PyInt y, PyBool x => (if x then 1 else 0) =? y
  | PyInt x, PyInt y => x =? y
  | PyStr x, PyStr y => String.eqb x y
  | PyDatetime x, PyDatetime y =>
      match lex_compare (datetime_fields x) (datetime_fields y) with
      | Eq => true
      | _ => false
      end
  | PyList x, PyList y =>
      (fix eq_list (l1 l2 : list pyval) : bool :=
         match l1, l2 with
         | [], [] => true
         | v1 :: l1', v2 :: l2' => py_eq v1 v2 && eq_list l1' l2'
         | _, _ => false
         end) x y
  | _, _ => false
  end.

(** Why binding the arguments of a call failed ([TypeError]). *)
Inductive call_error :=
| MultipleValues          (* got multiple values for argument ... *)
| TooManyPositional (given : nat)
| MissingRequired (names : list string).

(** Why [argparse] rejected a command line. *)
Inductive usage_error :=
| InvalidChoice (value : string)
| IgnoredExplicitArgument (arg : string)
| AmbiguousOption (arg : string) (matches : list string)
| UnexpectedOptionString (arg : string)
| UnknownParser (name : string)
| RequiredArguments (names : list string)
| UnrecognizedArguments (extras : list string).

Inductive exception :=
| TypeError (e : call_error)
| ArgumentError (e : usage_error)
| SystemExit (status : Z)
| AssertionError (msg : string)
| AttributeError (name : string)
| IndexError
| KeyError
| ValueError.

(** How a computation ends. [Diverge] is not a Python outcome: it marks
    a loop of the model that used up its bound. *)
Inductive result (A : Type) :=
| Ok (a : A)
| Raise (e : exception)
| Diverge.
Arguments Ok {A} a.
Arguments Raise {A} e.
Arguments Diverge {A}.

(** What a run writes, in order. Help and usage texts depend on the
    width of the terminal, so they are recorded by the parser that
    printed them rather than as text. *)
Inductive event :=
| Print (line : string)                        (* print(line) *)
| PrintHelp (prog : string)                    (* parser.print_help() *)
| PrintUsage (prog : string)                   (* parser.print_usage(stderr) *)
| PrintError (prog : string) (e : usage_error) (* "prog: error: ..." on stderr *).

(** Computations with output: the events emitted, then how it ended. *)
Definition io (A : Type) : Type := list event * result A.

Definition ret {A} (a : A) : io A := ([], Ok a).
Definition raise {A} (e : exception) : io A := ([], Raise e).
Definition emit (ev : event) : io unit := ([ev], Ok tt).
Definition bind {A B} (m : io A) (k : A -> io B) : io B :=
  match m with
  | (out, Ok a) => let '(out', r) := k a in ((out ++ out')%list, r)
  | (out, Raise e) => (out, Raise e)
  | (out, Diverge) => (out, Diverge)
  end.

(** [try: m except ArgumentError as err: h err] *)
Definition catch_argument_error {A} (m : io A) (h : usage_error -> io A) : io A :=
  match m with
  | (out, Raise (ArgumentError e)) => let '(out', r) := h e in ((out ++ out')%list, r)
  | _ => m
  end.

(** [assert cond, msg], with assertions enabled (the interpreter's
    default, [__debug__] true). *)
Definition assert (cond : bool) (msg : string) : io unit :=
  if cond then ret tt else raise (AssertionError msg).

(** [a or b], which evaluates [b] only when [a] is false. *)
Definition or_ (a b : io bool) : io bool :=
  match a with
  | (out, Ok true) => (out, Ok true)
  | (out, Ok false) => let '(out', r) := b in ((out ++ out')%list, r)
  | (out, Raise e) => (out, Raise e)
  | (out, Diverge) => (out, Diverge)
  end.

(** [print(line)] *)
Definition print (line : string) : io unit := emit (Print line).

Definition outcome {A} (m : io A) : result A := snd m.
Definition output {A} (m : io A) : list event := fst m.

End py.

(** [io] is a monad; stdpp's notations [x ← m; k] and [m ;; k] sequence
    statements, and stop at the first exception. *)
#[global] Instance io_ret : MRet py.io := @py.ret.
#[global] Instance io_bind : MBind py.io := fun A B k m => py.bind m k.

(** ** core/task.py *)

Module task.
Import py.

(** An instance of [class Task]: the attributes [__init__] sets. *)
Record Task := mk_Task {
  id : pyval;
  name : pyval;
  start : pyval;
  end_ : pyval;
  repeat : pyval;
  tags : pyval;
  attributes : gmap string pyval
}.

(** [Task.__init__(self, id, name, start, end, repeat, tags, **kwargs)]:
    seven assignments, nothing else. *)
Definition __init__ (id name start end_ repeat tags : pyval)
    (kwargs : gmap string pyval) : Task :=
  {| id := id;
     name := name;
     start := start;
     end_ := end_;
     repeat := repeat;
     tags := tags;
     attributes := kwargs |}.

(** The named parameters after [self], in order, and the defaults of the
    last four. The default of [tags] is one list object, made when the
    function is defined and shared by every call that omits [tags]; the
    program never changes it, and the model holds its value. *)
Definition parameters : list string :=
  ["id"; "name"; "start"; "end"; "repeat"; "tags"].

Definition default_start : pyval := PyNone.
Definition default_end : pyval := PyNone.
Definition default_repeat : pyval := PyNone.
Definition default_tags : pyval := PyList [].

(** The value bound to the parameter at position [i] named [p]: the
    positional argument when there is one, else the keyword argument. *)
Definition argument (args : list pyval) (kwargs : gmap string pyval)
    (i : nat) (p : string) : option pyval :=
  match args !! i with
  | Some v => Some v
  | None => kwargs !! p
  end.

(** A keyword names a parameter that a positional argument already
    filled; [self] is always filled by the new object. *)
Definition bound_twice (args : list pyval) (kwargs : gmap string pyval) : bool :=
  bool_decide (is_Some (kwargs !! "self"))
  || existsb (fun p => bool_decide (is_Some (kwargs !! p)))
             (take (length args) parameters).

(** The keywords left for [**kwargs]: those that name no parameter. *)
Definition extra_keywords (kwargs : gmap string pyval) : gmap string pyval :=
  foldr delete kwargs parameters.

Definition missing (args : list pyval) (kwargs : gmap string pyval) : list string :=
  List.filter (fun p => negb (bool_decide (is_Some (kwargs !! p))))
              (drop (length args) (take 2 parameters)).

(** The call [Task(a1, ..., k1=v1, ...)] with positional arguments
    [args] and keyword arguments [kwargs]: Python binds them to the
    parameters of [__init__] (keywords first, then the count of
    positional arguments, then the required parameters), and runs it. *)
Definition new (args : list pyval) (kwargs : gmap string pyval) : result Task :=
  if bound_twice args kwargs then Raise (TypeError MultipleValues)
  else if (length parameters <? length args)%nat
       then Raise (TypeError (TooManyPositional (S (length args))))
  else
    match argument args kwargs 0 "id", argument args kwargs 1 "name" with
    | Some i, Some n =>
        Ok (__init__ i n
              (default default_start (argument args kwargs 2 "start"))
              (default default_end (argument args kwargs 3 "end"))
              (default default_repeat (argument args kwargs 4 "repeat"))
              (default default_tags (argument args kwargs 5 "tags"))
              (extra_keywords kwargs))
    | _, _ => Raise (TypeError (MissingRequired (missing args kwargs)))
    end.

End task.

(** ** The [argparse] library, as far as [parse_cli] uses it

    The model follows CPython 3.11's [argparse.py] for parsers built the
    way [parse_cli] builds them: the default [-h]/[--help] option, prefix
    character [-], abbreviations allowed, and at most one sub-parsers
    action as the only positional. Argument strings are strings of 8-bit
    characters. *)

Module argparse.
Import py.

(** One character of [arg_strings_pattern]: ['O'], ['A'] or ['-']. *)
Inductive pchar := PO | PA | PDash.

(** The optional actions of a parser: only [_HelpAction] ([nargs=0]). *)
Inductive optional_action := HelpAction.

(** [(action, option_string, explicit_arg)]; [None] marks an absent
    action or explicit argument. *)
Definition option_tuple : Type :=
  option optional_action * string * option string.

(** [(action, args, option_string)] *)
Definition action_tuple : Type := optional_action * list string * string.

(** [argparse.Namespace]: the attributes set through [dest]s, and the
    private [_unrecognized_args] attribute, absent when [None]. *)
Record Namespace := mk_Namespace {
  attrs : gmap string pyval;
  _unrecognized_args : option (list string)
}.

Definition setattr (namespace : Namespace) (key : string) (value : pyval) : Namespace :=
  {| attrs := <[key := value]> (attrs namespace);
     _unrecognized_args := _unrecognized_args namespace |}.

(** A parser held in [_name_parser_map] is used through its
    [parse_known_args] only. *)
Definition parse_fn : Type := list string -> io (Namespace * list string).

(** [_SubParsersAction]: [nargs=PARSER], [default=None], its choices
    are the keys of [_name_parser_map], in insertion order. *)
Record SubParsersAction := mk_SubParsersAction {
  dest : string;
  required : bool;
  _name_parser_map : list (string * parse_fn)
}.

(** [ArgumentParser(prog=...)]: its options are [-h] and [--help]
    ([add_help] is true by default); [_subparsers] is the action that
    [add_subparsers] added, if it was called. A parser accepts one call
    of [add_subparsers] only. *)
Record ArgumentParser := mk_ArgumentParser {
  prog : string;
  _subparsers : option SubParsersAction
}.

Definition prefix_chars : list ascii := ["-"%char].

Definition in_prefix_chars (c : ascii) : bool :=
  existsb (Ascii.eqb c) prefix_chars.

(** [_option_string_actions], in insertion order. *)
Definition _option_string_actions : list (string * optional_action) :=
  [("-h", HelpAction); ("--help", HelpAction)].

Fixpoint assoc {V} (key : string) (m : list (string * V)) : option V :=
  match m with
  | [] => None
  | (k, v) :: m' => if String.eqb key k then Some v else assoc key m'
  end.

(** *** Strings *)

(** ['=' in s] and [s.split('=', 1)] at once. *)
Fixpoint split_equals (s : string) : option (string * string) :=
  match s with
  | EmptyString => None
  | String c r =>
      if Ascii.eqb c "="%char then Some (EmptyString, r)
      else match split_equals r with
           | Some (a, b) => Some (String c a, b)
           | None => None
           end
  end.

(** [c in s] *)
Fixpoint contains (c : ascii) (s : string) : bool :=
  match s with
  | EmptyString => false
  | String c' r => Ascii.eqb c c' || contains c r
  end.

(** [\d], on 8-bit characters *)
Definition is_digit (c : ascii) : bool :=
  let n := nat_of_ascii c in ((48 <=? n) && (n <=? 57))%nat.

(** [\d*] up to the end of the string *)
Fixpoint all_digits (s : string) : bool :=
  match s with
  | EmptyString => true
  | String c r => is_digit c && all_digits r
  end.

(** [\d+] up to the end of the string *)
Definition digits1 (s : string) : bool :=
  match s with
  | EmptyString => false
  | String _ _ => all_digits s
  end.

(** [\d*\.\d+] up to the end of the string *)
Fixpoint decimal (s : string) : bool :=
  match s with
  | EmptyString => false
  | String c r =>
      if Ascii.eqb c "."%char then digits1 r
      else is_digit c && decimal r
  end.

(** [$] also matches just before one final newline. *)
Fixpoint strip_final_newline (s : string) : string :=
  match s with
  | EmptyString => EmptyString
  | String c r =>
      match r with
      | EmptyString => if Ascii.eqb c "010"%char then EmptyString else s
      | String _ _ => String c (strip_final_newline r)
      end
  end.

(** [_negative_number_matcher.match(s)], the pattern being
    [^-\d+$|^-\d*\.\d+$]. *)
Definition _negative_number_matcher (s : string) : bool :=
  match s with
  | String "-"%char body =>
      let body := strip_final_newline body in
      digits1 body || decimal body
  | _ => false
  end.

(** No option of the parser looks like a negative number. *)
Definition _has_negative_number_optionals : bool := false.

(** *** Printing and exiting *)

Definition exit {A} (status : Z) : io A := raise (SystemExit status).

Definition print_help (self : ArgumentParser) : io unit :=
  emit (PrintHelp (prog self)).

(** [self.error(message)]: the usage and the message on stderr, then
    exit status 2. *)
Definition error {A} (self : ArgumentParser) (e : usage_error) : io A :=
  emit (PrintUsage (prog self)) ;;
  emit (PrintError (prog self) e) ;;
  exit 2.

(** *** Telling options from arguments *)

(** [_get_option_tuples(option_string)]: the options that the string
    abbreviates. *)
Definition _get_option_tuples (self : ArgumentParser) (option_string : string)
    : io (list option_tuple) :=
  match option_string with
  | String c0 (String c1 tail) =>
      if in_prefix_chars c0 && in_prefix_chars c1 then
        (* allow_abbrev: split at the '=' only *)
        let '(option_prefix, explicit_arg) :=
          match split_equals option_string with
          | Some (p, e) => (p, Some e)
          | None => (option_string, None)
          end in
        ret (flat_map (fun '(os, action) =>
               if String.prefix option_prefix os
               then [(Some action, os, explicit_arg)] else [])
             _option_string_actions)
      else if in_prefix_chars c0 && negb (in_prefix_chars c1) then
        let option_prefix := option_string in
        let short_option_prefix := String c0 (String c1 EmptyString) in
        let short_explicit_arg := tail in
        ret (flat_map (fun '(os, action) =>
               if String.eqb os short_option_prefix
               then [(Some action, os, Some short_explicit_arg)]
               else if String.prefix option_prefix os
               then [(Some action, os, None)] else [])
             _option_string_actions)
      else error self (UnexpectedOptionString option_string)
  | _ => raise IndexError
  end.

(** [_parse_optional(arg_string)]: [None] for a positional argument,
    else the option tuple. *)
Definition _parse_optional (self : ArgumentParser) (arg_string : string)
    : io (option option_tuple) :=
  match arg_string with
  | EmptyString => ret None
  | String c0 tail =>
      if negb (in_prefix_chars c0) then ret None
      else match assoc arg_string _option_string_actions with
      | Some action => ret (Some (Some action, arg_string, None))
      | None =>
      if (String.length arg_string =? 1)%nat then ret None
      else
        match
          match split_equals arg_string with
          | Some (option_string, explicit_arg) =>
              match assoc option_string _option_string_actions with
              | Some action => Some (Some action, option_string, Some explicit_arg)
              | None => None
              end
          | None => None
          end
        with
        | Some tuple => ret (Some tuple)
        | None =>
            option_tuples ← _get_option_tuples self arg_string;
            match option_tuples with
            | _ :: _ :: _ =>
                error self (AmbiguousOption arg_string
                              (map (fun t => snd (fst t)) option_tuples))
            | [option_tuple] => ret (Some option_tuple)
            | [] =>
                if _negative_number_matcher arg_string
                   && negb _has_negative_number_optionals then ret None
                else if contains " "%char arg_string then ret None
                else ret (Some (None, arg_string, None))
            end
        end
      end
  end.

(** The first loop of [_parse_known_args]: the pattern of the command
    line, and [option_string_indices] as the list of its items in
    increasing order of index. Everything after ["--"] is an argument. *)
Fixpoint scan (self : ArgumentParser) (i : nat) (arg_strings : list string)
    : io (list pchar * list (nat * option_tuple)) :=
  match arg_strings with
  | [] => ret ([], [])
  | arg_string :: rest =>
      if String.eqb arg_string "--"
      then ret (PDash :: map (fun _ => PA) rest, [])
      else
        option_tuple ← _parse_optional self arg_string;
        '(pattern, indices) ← scan self (S i) rest;
        ret (match option_tuple with
             | None => (PA :: pattern, indices)
             | Some t => (PO :: pattern, (i, t) :: indices)
             end)
  end.

(** *** Matching the pattern *)

(** [_match_argument(action, pattern)] for an optional action: a help
    action has [nargs=0], its pattern is [()], which matches the empty
    string at the start of every pattern, so the count is 0. *)
Definition _match_argument (action : optional_action) (pattern : list pchar) : nat :=
  match action with
  | HelpAction => 0%nat
  end.

(** [-*] *)
Fixpoint skip_dashes (pattern : list pchar) : list pchar :=
  match pattern with
  | PDash :: rest => skip_dashes rest
  | _ => pattern
  end.

(** [_match_arguments_partial(positionals, pattern)]: a parser has at
    most one positional, its sub-parsers action, so the list of
    positionals and the list of argument counts have at most one item.
    The pattern of the action is one group: any dashes, an [A], then
    any of [-], [A] and [O]; when it matches it takes the whole
    string. *)
Definition _match_arguments_partial (positionals : option SubParsersAction)
    (pattern : list pchar) : option nat :=
  match positionals with
  | None => None
  | Some _ =>
      match skip_dashes pattern with
      | PA :: _ => Some (length pattern)
      | _ => None
      end
  end.

(** *** Actions *)

(** [_check_value(action, value)] *)
Definition _check_value (action : SubParsersAction) (value : string) : io unit :=
  match assoc value (_name_parser_map action) with
  | Some _ => ret tt
  | None => raise (ArgumentError (InvalidChoice value))
  end.

(** [_get_values(action, arg_strings)] for [nargs=PARSER]: no ["--"]
    is removed, the values are the strings, the first one is checked. *)
Definition _get_values (action : SubParsersAction) (arg_strings : list string)
    : io (list string) :=
  match arg_strings with
  | [] => raise IndexError
  | value0 :: _ => _check_value action value0 ;; ret arg_strings
  end.

(** [_SubParsersAction.__call__(parser, namespace, values)] *)
Definition SubParsersAction_call (self : SubParsersAction)
    (namespace : Namespace) (values : list string) : io Namespace :=
  match values with
  | [] => raise IndexError
  | parser_name :: arg_strings =>
      let namespace := setattr namespace (dest self) (PyStr parser_name) in
      match assoc parser_name (_name_parser_map self) with
      | None => raise (ArgumentError (UnknownParser parser_name))
      | Some parser =>
          '(subnamespace, arg_strings) ← parser arg_strings;
          let namespace :=
            {| attrs := attrs subnamespace ∪ attrs namespace;
               _unrecognized_args := _unrecognized_args namespace |} in
          ret (match arg_strings with
               | [] => namespace
               | _ :: _ =>
                   {| attrs := attrs namespace;
                      _unrecognized_args :=
                        Some (default [] (_unrecognized_args namespace)
                              ++ arg_strings)%list |}
               end)
      end
  end.

(** [_HelpAction.__call__]: print the help and exit with status 0. *)
Definition HelpAction_call (parser : ArgumentParser) : io unit :=
  print_help parser ;; exit 0.

(** *** [_parse_known_args] *)

(** What the nested functions of [_parse_known_args] share and change:
    the namespace, [extras], and the positionals left to be parsed. *)
Record state := mk_state {
  ns : Namespace;
  extras : list string;
  positionals : option SubParsersAction
}.

Section parse_known_args.
Variable self : ArgumentParser.
Variable arg_strings : list string.
Variable arg_strings_pattern : list pchar.
Variable option_string_indices : list (nat * option_tuple).

Definition option_indices : list nat := map fst option_string_indices.

(** [option_string_indices[i]] *)
Fixpoint option_at (i : nat) (m : list (nat * option_tuple)) : option option_tuple :=
  match m with
  | [] => None
  | (j, t) :: m' => if (i =? j)%nat then Some t else option_at i m'
  end.

(** [take_action(action, argument_strings)] for the positional. *)
Definition take_action (action : SubParsersAction) (namespace : Namespace)
    (argument_strings : list string) : io Namespace :=
  argument_values ← _get_values action argument_strings;
  SubParsersAction_call action namespace argument_values.

(** The [while True] loop of [consume_optional] while an explicit
    argument is left: [-xyz] is [-x -y -z] when no argument is
    taken. It returns [action_tuples]. *)
Fixpoint explicit_arguments (action : optional_action) (option_string : string)
    (explicit_arg : string) (action_tuples : list action_tuple)
    {struct explicit_arg} : io (list action_tuple) :=
  let arg_count := _match_argument action [PA] in
  match option_string with
  | String char (String c1 _) =>
      if (arg_count =? 0)%nat && negb (in_prefix_chars c1)
         && negb (String.eqb explicit_arg "")
      then
        match explicit_arg with
        | EmptyString => raise IndexError
        | String e0 new_explicit_arg =>
            let action_tuples := (action_tuples ++ [(action, [], option_string)])%list in
            let option_string := String char (String e0 EmptyString) in
            match assoc option_string _option_string_actions with
            | Some action =>
                match new_explicit_arg with
                | EmptyString =>
                    (* explicit_arg is None: the arguments are matched
                       with the following strings *)
                    ret (action_tuples ++ [(action, [], option_string)])%list
                | String _ _ =>
                    explicit_arguments action option_string new_explicit_arg
                                       action_tuples
                end
            | None => raise (ArgumentError (IgnoredExplicitArgument explicit_arg))
            end
        end
      else if (arg_count =? 1)%nat
      then ret (action_tuples ++ [(action, [explicit_arg], option_string)])%list
      else raise (ArgumentError (IgnoredExplicitArgument explicit_arg))
  | _ => raise IndexError
  end.

(** [consume_optional(start_index)]: the new [extras] and the index
    at which the arguments of the option stopped. *)
Definition consume_optional (extras : list string) (start_index : nat)
    : io (list string * nat) :=
  match option_at start_index option_string_indices with
  | None => raise KeyError
  | Some (None, _, _) =>
      (* no optional action was found: skip it *)
      match arg_strings !! start_index with
      | Some arg_string => ret ((extras ++ [arg_string])%list, S start_index)
      | None => raise IndexError
      end
  | Some (Some action, option_string, explicit_arg) =>
      action_tuples ←
        match explicit_arg with
        | Some explicit_arg =>
            explicit_arguments action option_string explicit_arg []
        | None => ret [(action, @nil string, option_string)]
        end;
      let start := S start_index in
      let arg_count :=
        _match_argument action (drop start arg_strings_pattern) in
      let stop := (start + arg_count)%nat in
      (* every action tuple holds a help action *)
      foldr (fun (_ : action_tuple) (k : io unit) => HelpAction_call self ;; k)
            (ret tt) action_tuples ;;
      ret (extras, stop)
  end.

(** [consume_positionals(start_index)] *)
Definition consume_positionals (st : state) (start_index : nat)
    : io (state * nat) :=
  let selected_pattern := drop start_index arg_strings_pattern in
  match positionals st,
        _match_arguments_partial (positionals st) selected_pattern with
  | Some action, Some arg_count =>
      let args := take arg_count (drop start_index arg_strings) in
      namespace ← take_action action (ns st) args;
      ret ({| ns := namespace;
              extras := extras st;
              positionals := None |},
           (start_index + arg_count)%nat)
  | _, _ => ret (st, start_index)
  end.

(** [max(option_string_indices)], or [-1] when there is none. *)
Definition max_option_string_index : Z :=
  match option_indices with
  | [] => -1
  | _ :: _ => Z.of_nat (max_list option_indices)
  end.

(** [min(l)], which raises [ValueError] on an empty list. *)
Definition min_index (l : list nat) : io nat :=
  match l with
  | [] => raise ValueError
  | i :: l' => ret (foldr Nat.min i l')
  end.

(** The loop that consumes positionals and optionals alternately,
    until the last option string is passed. [fuel] bounds the number
    of iterations. *)
Fixpoint consume_all (fuel : nat) (st : state) (start_index : nat)
    : io (state * nat) :=
  if Z.of_nat start_index <=? max_option_string_index then
    match fuel with
    | O => ([], Diverge)
    | S fuel =>
        next_option_string_index ←
          min_index (List.filter (fun index => start_index <=? index)%nat
                                 option_indices);
        '(st, start_index, again) ←
          (if negb (start_index =? next_option_string_index)%nat then
             '(st', positionals_end_index) ← consume_positionals st start_index;
             ret (st', positionals_end_index,
                  (start_index <? positionals_end_index)%nat)
           else ret (st, start_index, false));
        if (again : bool) then consume_all fuel st start_index
        else
          let '(st, start_index) :=
            if negb (existsb (Nat.eqb start_index) option_indices) then
              let strings :=
                drop start_index (take next_option_string_index arg_strings) in
              ({| ns := ns st;
                  extras := (extras st ++ strings)%list;
                  positionals := positionals st |},
               next_option_string_index)
            else (st, start_index) in
          '(extras', start_index) ← consume_optional (extras st) start_index;
          consume_all fuel
            {| ns := ns st;
               extras := extras';
               positionals := positionals st |}
            start_index
    end
  else ret (st, start_index).

End parse_known_args.

(** [_parse_known_args(arg_strings, namespace)] *)
Definition _parse_known_args (self : ArgumentParser) (arg_strings : list string)
    (namespace : Namespace) : io (Namespace * list string) :=
  '(arg_strings_pattern, option_string_indices) ← scan self 0 arg_strings;
  let st := {| ns := namespace;
               extras := [];
               positionals := _subparsers self |} in
  '(st, start_index) ←
    consume_all self arg_strings arg_strings_pattern option_string_indices
                (S (length arg_strings)) st 0;
  (* consume any positionals following the last optional *)
  '(st, stop_index) ←
    consume_positionals arg_strings arg_strings_pattern st start_index;
  let extras := (extras st ++ drop stop_index arg_strings)%list in
  (* an action that was not seen is a positional that is left *)
  let required_actions :=
    match positionals st with
    | Some action => if required action then [dest action] else []
    | None => []
    end in
  match required_actions with
  | _ :: _ => error self (RequiredArguments required_actions)
  | [] => ret (ns st, extras)
  end.

(** [parse_known_args(args)] with a new namespace. *)
Definition parse_known_args (self : ArgumentParser) (args : list string)
    : io (Namespace * list string) :=
  let namespace := {| attrs := ∅; _unrecognized_args := None |} in
  (* the defaults of the actions: only the sub-parsers action has a dest *)
  let namespace :=
    match _subparsers self with
    | Some action =>
        match attrs namespace !! dest action with
        | None => setattr namespace (dest action) PyNone
        | Some _ => namespace
        end
    | None => namespace
    end in
  '(namespace, args) ←
    catch_argument_error (_parse_known_args self args namespace)
                         (fun err => error self err);
  ret (match _unrecognized_args namespace with
       | Some unrecognized =>
           ({| attrs := attrs namespace; _unrecognized_args := None |},
            (args ++ unrecognized)%list)
       | None => (namespace, args)
       end).

(** [parse_args(args)] *)
Definition parse_args (self : ArgumentParser) (args : list string) : io Namespace :=
  '(args, argv) ← parse_known_args self args;
  match argv with
  | _ :: _ => error self (UnrecognizedArguments argv)
  | [] => ret args
  end.

(** [namespace.name] *)
Definition getattr (namespace : Namespace) (name : string) : io pyval :=
  match attrs namespace !! name with
  | Some v => ret v
  | None => raise (AttributeError name)
  end.

End argparse.

(** ** cli.py *)

Module cli.
Import py argparse.

(** The parser of the "list" command, also reached as "ls". *)
Definition list_ : ArgumentParser :=
  {| prog := "PlanIt list"; _subparsers := None |}.

(** The parser of the "add" command. *)
Definition add : ArgumentParser :=
  {| prog := "PlanIt add"; _subparsers := None |}.

(** [parser.add_subparsers(dest="command", required=False)], after the
    two calls of [add_parser]. *)
Definition commands : SubParsersAction :=
  {| dest := "command";
     required := false;
     _name_parser_map :=
       [("list", parse_known_args list_);
        ("ls", parse_known_args list_);
        ("add", parse_known_args add)] |}.

Definition parser : ArgumentParser :=
  {| prog := "PlanIt"; _subparsers := Some commands |}.

(** [parse_cli(argv)] *)
Definition parse_cli (argv : list string) : io Namespace :=
  parse_args parser argv.

End cli.

(** ** main.py *)

Module main.
Import py argparse.

(** [args.command == value] *)
Definition command_is (args : Namespace) (value : pyval) : io bool :=
  command ← getattr args "command";
  ret (py_eq command value).

(** [main(argv)] *)
Definition main (argv : list string) : io unit :=
  args ← cli.parse_cli argv;
  is_list ← or_ (or_ (command_is args (PyStr "list"))
                     (command_is args (PyStr "ls")))
                (command_is args PyNone);
  if (is_list : bool) then print "All Todos:"
  else
    is_add ← command_is args (PyStr "add");
    if (is_add : bool) then assert false "Adding items not supported"
    else assert false "Unreachable".

End main.

(** ** Properties of tasks that the specification names *)

Module invariants.
Import py task.

(** [start <= end] when both are present, that is, both datetimes. *)
Definition dates_ordered (start end_ : pyval) : Prop :=
  match start, end_ with
  | PyDatetime s, PyDatetime e => datetime_leb s e = true
  | _, _ => True
  end.

Definition start_le_end (t : Task) : Prop :=
  dates_ordered (start t) (end_ t).

(** The tags are a list without duplicates. *)
Definition tags_distinct (t : Task) : Prop :=
  ∃ l, tags t = PyList l ∧ NoDup l.

(** The command stored in a namespace. *)
Definition command (args : argparse.Namespace) : option pyval :=
  argparse.attrs args !! "command".

(** The values of [args.command] that [main] tests for. *)
Definition known_command (c : option pyval) : Prop :=
  c = Some PyNone ∨ c = Some (PyStr "list") ∨ c = Some (PyStr "ls")
  ∨ c = Some (PyStr "add").

(** The sub-command names: the keys of the parser map of [cli.commands]. *)
Definition subcommand (s : string) : Prop :=
  s = "list" ∨ s = "ls" ∨ s = "add".

(** An argument string that [argparse] takes for a positional
    argument of the main parser. *)
Definition positional (s : string) : Prop :=
  s ≠ "--" ∧ argparse._parse_optional cli.parser s = ret None.

End invariants.

(** ** What the parser proofs maintain *)

Module parsing.
Import py argparse.

(** An option tuple found by abbreviation names an action and one of
    the option strings of the parser. *)
Definition known_option (t : option_tuple) : Prop :=
  is_Some (fst (fst t)) ∧ is_Some (assoc (snd (fst t)) _option_string_actions).

(** The option string of a tuple that has an action is one of the
    option strings of the parser. *)
Definition well_formed (t : option_tuple) : Prop :=
  match t with
  | (None, _, _) => True
  | (Some _, option_string, _) =>
      is_Some (assoc option_string _option_string_actions)
  end.

(** Inside [_parse_known_args] a run returns, exits, or raises
    [ArgumentError]; none of the lookups fails. *)
Definition clean {A} (m : io A) : Prop :=
  match m.2 with
  | Ok _ | Raise (SystemExit _) | Raise (ArgumentError _) => True
  | _ => False
  end.

(** Seen from outside, a run returns or exits. *)
Definition exits_cleanly {A} (m : io A) : Prop :=
  match m.2 with
  | Ok _ | Raise (SystemExit _) => True
  | _ => False
  end.

(** What the sub-parsers action needs of a parser it dispatches to:
    when it returns it has printed nothing, set no attribute, and
    handed back every argument as an extra. *)
Definition sub_parser_ok (f : parse_fn) : Prop :=
  ∀ a, exits_cleanly (f a)
       ∧ ∀ out ns' ex, f a = (out, Ok (ns', ex)) →
           out = [] ∧ attrs ns' = ∅ ∧ _unrecognized_args ns' = None ∧ ex = a.

Definition sub_parsers_ok (self : ArgumentParser) : Prop :=
  ∀ action name f, _subparsers self = Some action →
    assoc name (_name_parser_map action) = Some f → sub_parser_ok f.

(** The namespace once the sub-parsers action has taken [name] and
    handed [rest] to its parser. *)
Definition dispatch (action : SubParsersAction) (ns0 : Namespace)
    (name : string) (rest : list string) : Namespace :=
  {| attrs := <[dest action := PyStr name]> (attrs ns0);
     _unrecognized_args :=
       match rest with
       | [] => _unrecognized_args ns0
       | _ :: _ => Some (default [] (_unrecognized_args ns0) ++ rest)%list
       end |}.

(** Up to index [i] no positional was consumed: every argument so far
    is an extra. *)
Definition untouched (self : ArgumentParser) (arg_strings : list string)
    (ns0 : Namespace) (st : state) (i : nat) : Prop :=
  positionals st = _subparsers self ∧ ns st = ns0
  ∧ extras st = take i arg_strings.

(** The sub-parsers action took the argument at [i0] and all that
    follows. *)
Definition dispatched (self : ArgumentParser) (arg_strings : list string)
    (ns0 : Namespace) (st : state) : Prop :=
  ∃ action i0 name,
    _subparsers self = Some action ∧ positionals st = None
    ∧ arg_strings !! i0 = Some name
    ∧ is_Some (assoc name (_name_parser_map action))
    ∧ extras st = take i0 arg_strings
    ∧ ns st = dispatch action ns0 name (drop (S i0) arg_strings).

(** The invariant of the loop of [_parse_known_args]. *)
Definition progress (self : ArgumentParser) (arg_strings : list string)
    (ns0 : Namespace) (st : state) (i : nat) : Prop :=
  ((i ≤ length arg_strings)%nat ∧ untouched self arg_strings ns0 st i)
  ∨ (i = length arg_strings ∧ dispatched self arg_strings ns0 st).

(** What [_parse_known_args] returns: nothing was consumed, or the
    sub-parsers action took the argument at [i0]. *)
Definition parsed (self : ArgumentParser) (args : list string)
    (ns0 ns' : Namespace) (ex : list string) : Prop :=
  (ns' = ns0 ∧ ex = args)
  ∨ ∃ action i0 name,
      _subparsers self = Some action
      ∧ args !! i0 = Some name
      ∧ is_Some (assoc name (_name_parser_map action))
      ∧ ns' = dispatch action ns0 name (drop (S i0) args)
      ∧ ex = take i0 args.

(** The attributes of the namespace before the command line is read. *)
Definition default_attrs (self : ArgumentParser) : gmap string pyval :=
  match _subparsers self with
  | Some action => {[dest action := PyNone]}
  | None => ∅
  end.

End parsing.

(** ** Sample values *)

Module samples.
Import py task.

Definition jan_1 : datetime := mk_datetime 2025 1 1 0 0 0 0.
Definition jan_2 : datetime := mk_datetime 2025 1 2 0 0 0 0.

(** [Task(1, "t", start=jan_2, end=jan_1)] *)
Definition reversed_dates : list pyval :=
  [PyInt 1; PyStr "t"; PyDatetime jan_2; PyDatetime jan_1].

(** [Task(1, "t", None, None, None, tags)] *)
Definition with_tags (l : list pyval) : list pyval :=
  [PyInt 1; PyStr "t"; PyNone; PyNone; PyNone; PyList l].

(** [Task(1, "t", priority=3)] *)
Definition priority_3 : gmap string pyval := {["priority" := PyInt 3]}.

End samples.

(** ** The script entry of main.py *)

Module script.
Import py.

(** [if __name__ == "__main__": main(sys.argv[1:])]. A slice never
    raises: with no program name at all the arguments are empty. *)
Definition __main__ (sys_argv : list string) : io unit :=
  main.main (drop 1 sys_argv).

(** The exit status of the interpreter: 0 when the script ends, the
    status of [SystemExit], 1 after any other exception that nothing
    caught. *)
Definition exit_status (m : io unit) : option Z :=
  match outcome m with
  | Ok _ => Some 0
  | Raise (SystemExit status) => Some status
  | Raise _ => Some 1
  | Diverge => None
  end.

End script.

(** ** Words for the behaviour of calls and command lines *)

Module behaviour.
Import py argparse.

(** The keyword arguments [p1=v1, p2=v2, ...]. *)
Definition keywords (names : list string) (values : list pyval)
    : gmap string pyval :=
  list_to_map (zip names values).

(** No keyword repeats [self] or a parameter filled by position. *)
Definition no_clash (args : list pyval) (kwargs : gmap string pyval) : Prop :=
  kwargs !! "self" = None
  ∧ ∀ i p, task.parameters !! i = Some p → (i < length args)%nat →
      kwargs !! p = None.

(** The output of a run of a parser goes with its outcome: nothing is
    printed before it returns or raises [ArgumentError]; an exit with
    status 0 follows one help text, an exit with status 2 one usage line
    and one error message. [P] tells the programs that may print. *)
Definition shaped (P : string → Prop) {A} (m : io A) : Prop :=
  match m with
  | (out, Ok _) => out = []
  | (out, Raise (ArgumentError _)) => out = []
  | (out, Raise (SystemExit status)) =>
      (status = 0 ∧ ∃ p, P p ∧ out = [PrintHelp p])
      ∨ (status = 2 ∧ ∃ p e, P p ∧ out = [PrintUsage p; PrintError p e])
  | _ => True
  end.

(** Every parser that the action dispatches to is [shaped]. *)
Definition action_shaped (P : string → Prop)
    (action : option SubParsersAction) : Prop :=
  ∀ a name f, action = Some a →
    assoc name (_name_parser_map a) = Some f → ∀ l, shaped P (f l).

(** The programs of the parsers that [parse_cli] builds. *)
Definition cli_prog (p : string) : Prop :=
  p = "PlanIt" ∨ p = "PlanIt list" ∨ p = "PlanIt add".

(** The program of the parser of a sub-command; "ls" shares the parser
    of "list". *)
Definition sub_prog (c : string) : string :=
  if String.eqb c "add" then "PlanIt add" else "PlanIt list".

(** The help option, as typed in full or abbreviated. *)
Definition help_string (s : string) : Prop :=
  s = "-h" ∨ s = "--help" ∨ s = "--h" ∨ s = "--he" ∨ s = "--hel".

Definition starts_with_dash (s : string) : bool :=
  match s with
  | String c _ => in_prefix_chars c
  | EmptyString => false
  end.

(** An argument string that does not start with a prefix character. *)
Definition plain (s : string) : Prop := starts_with_dash s = false.

End behaviour.

(** * Properties *)

(** ** Tasks *)

Section task_properties.
Import py task invariants samples.

(** Positional arguments for all six parameters are bound in order. *)
Lemma new_positional (i n s e r tg : pyval) :
  new [i; n; s; e; r; tg] ∅ = Ok (__init__ i n s e r tg ∅).
Proof. reflexivity. Qed.

(** A keyword that names no parameter stays among the extra keywords. *)
Lemma extra_keywords_other (kwargs : gmap string pyval) (k : string) :
  k ∉ parameters → extra_keywords kwargs !! k = kwargs !! k.
Proof.
  unfold extra_keywords, parameters. intros Hk. simpl.
  rewrite !lookup_delete_ne;
    [done | intros Heq; apply Hk; rewrite <- Heq ..];
    repeat first [apply list_elem_of_here | apply list_elem_of_further].
Qed.

(** A keyword that names a parameter is not among them. *)
Lemma extra_keywords_parameter (kwargs : gmap string pyval) (k : string) :
  k ∈ parameters → extra_keywords kwargs !! k = None.
Proof.
  unfold extra_keywords, parameters. intros Hk. simpl.
  rewrite !lookup_delete.
  repeat (apply elem_of_cons in Hk as [-> | Hk]; [by repeat case_decide |]).
  by apply elem_of_nil in Hk.
Qed.

Lemma new_attributes (args : list pyval) (kwargs : gmap string pyval) (t : Task) :
  new args kwargs = Ok t → attributes t = extra_keywords kwargs.
Proof.
  unfold new. intros H.
  destruct (bound_twice args kwargs); [discriminate |].
  destruct (_ <? _)%nat; [discriminate |].
  destruct (argument args kwargs 0 "id"); [| discriminate].
  destruct (argument args kwargs 1 "name"); [| discriminate].
  by injection H as <-.
Qed.

(** C10. Constructing a task never raises and checks nothing: whatever
    the six values are (an empty name, a start after the end, ...), the
    call returns a task whose named fields are the values supplied. *)
Theorem Task_construction_total (i n s e r tg : pyval) :
  ∃ t, new [i; n; s; e; r; tg] ∅ = Ok t
       ∧ id t = i ∧ name t = n ∧ start t = s ∧ end_ t = e
       ∧ repeat t = r ∧ tags t = tg.
Proof. eexists. split; [apply new_positional |]. by repeat split. Qed.

(** C4. Every keyword argument that names no parameter is found in
    [attributes] under its key with its value, and [attributes] holds
    nothing else. *)
Theorem Task_kwargs_preserved (args : list pyval) (kwargs : gmap string pyval)
    (t : Task) :
  new args kwargs = Ok t →
  (∀ k, k ∉ parameters → attributes t !! k = kwargs !! k)
  ∧ (∀ k, k ∈ parameters → attributes t !! k = None).
Proof.
  intros H. rewrite (new_attributes _ _ _ H).
  split; intros k Hk.
  - by apply extra_keywords_other.
  - by apply extra_keywords_parameter.
Qed.

Lemma Task_kwargs_preserved_witness :
  ∃ t, new [PyInt 1; PyStr "t"] priority_3 = Ok t
       ∧ attributes t !! "priority" = Some (PyInt 3).
Proof.
  eexists. split; [vm_compute; reflexivity |].
  refine (eq_trans (proj1 (Task_kwargs_preserved [PyInt 1; PyStr "t"]
                             priority_3 _ eq_refl) "priority" _) _).
  - intros Hk.
    repeat (apply elem_of_cons in Hk as [Hk | Hk]; [discriminate |]).
    by apply elem_of_nil in Hk.
  - reflexivity.
Defined.

(** C2, as the specification states it, fails: a task is constructed
    with its start after its end. *)
Lemma start_after_end_accepted :
  ∃ t, new reversed_dates ∅ = Ok t ∧ ¬ start_le_end t.
Proof. eexists. split; [reflexivity |]. by vm_compute. Qed.

(** C2, amended. Construction does not compare [start] with [end]: it
    stores both as supplied, so the task has [start <= end] exactly
    when the values supplied have. *)
Theorem Task_dates_as_supplied (i n s e r tg : pyval) :
  ∃ t, new [i; n; s; e; r; tg] ∅ = Ok t
       ∧ start t = s ∧ end_ t = e
       ∧ (start_le_end t ↔ dates_ordered s e).
Proof. eexists. split; [apply new_positional |]. by repeat split. Qed.

(** C3, as the specification states it, fails: supplied twice, a tag
    is held twice, and two orders of the same tags give two different
    tasks. *)
Lemma tags_kept_as_list :
  (∃ t, new (with_tags [PyStr "a"; PyStr "a"]) ∅ = Ok t ∧ ¬ tags_distinct t)
  ∧ new (with_tags [PyStr "a"; PyStr "b"]) ∅
    ≠ new (with_tags [PyStr "b"; PyStr "a"]) ∅.
Proof.
  split; [| discriminate].
  eexists. split; [reflexivity |].
  intros (l & Hl & Hnd). injection Hl as <-.
  apply NoDup_cons in Hnd as [Hnd _]. apply Hnd, list_elem_of_here.
Qed.

(** C3, amended. [tags] is the list that was supplied, in its order
    and with its repetitions; it has no duplicate exactly when the list
    supplied has none. *)
Theorem Task_tags_as_supplied (i n s e r : pyval) (l : list pyval) :
  ∃ t, new [i; n; s; e; r; PyList l] ∅ = Ok t
       ∧ tags t = PyList l
       ∧ (tags_distinct t ↔ NoDup l).
Proof.
  eexists. split; [apply new_positional |]. split; [reflexivity |].
  split.
  - intros (l' & Hl & Hnd). simpl in Hl. by injection Hl as ->.
  - intros Hnd. by exists l.
Qed.

End task_properties.

(** ** The monad *)

Open Scope list_scope.

Section io_lemmas.
Import py parsing.
Context {A B : Type}.

Lemma bind_unfold (m : io A) (k : A → io B) : m ≫= k = py.bind m k.
Proof. reflexivity. Qed.

Lemma bind_ret (a : A) (k : A → io B) : ret a ≫= k = k a.
Proof. unfold ret. rewrite bind_unfold. simpl. by destruct (k a). Qed.

Lemma bind_nil (a : A) (k : A → io B) : ([], Ok a) ≫= k = k a.
Proof. apply bind_ret. Qed.

Lemma bind_raise (o : list event) (e : exception) (k : A → io B) :
  (o, Raise e) ≫= k = (o, Raise e).
Proof. reflexivity. Qed.

Lemma exits_cleanly_clean (m : io A) : exits_cleanly m → clean m.
Proof. unfold exits_cleanly, clean. by destruct m.2 as [| [] |]. Qed.
End io_lemmas.

(** ** Options and arguments *)

#[local] Arguments Ascii.eqb : simpl never.
#[local] Arguments ascii_dec : simpl never.

(** Decide every comparison of characters in the goal. *)
Ltac char_cases :=
  repeat (match goal with
          | |- context [Ascii.eqb ?a ?b] =>
              destruct (Ascii.eqb_spec a b); try subst; try congruence
          | |- context [ascii_dec ?a ?b] =>
              destruct (ascii_dec a b); try subst; try congruence
          end; cbn).

Ltac case_if :=
  match goal with
  | |- context [if ?b then _ else _] => destruct b eqn:?
  end.

Section options.
Import py argparse parsing.

Lemma in_prefix_chars_spec (c : ascii) :
  in_prefix_chars c = true ↔ c = "-"%char.
Proof.
  unfold in_prefix_chars. simpl. rewrite orb_false_r. apply Ascii.eqb_eq.
Qed.

Lemma option_string_cases (os : string) :
  is_Some (assoc os _option_string_actions) → os = "-h" ∨ os = "--help".
Proof.
  cbn [assoc _option_string_actions].
  destruct (String.eqb_spec os "-h"); [by left |].
  destruct (String.eqb_spec os "--help"); [by right |].
  by intros [? ?].
Qed.

Lemma known_option_well_formed (t : option_tuple) :
  known_option t → well_formed t.
Proof. destruct t as [[[a|] os] e]; intros [H1 H2]; cbn in *; auto. Qed.

(** No string abbreviates two options: [-h] and [--help] have no
    common prefix of two characters. *)
Lemma get_option_tuples_short (self : ArgumentParser) (c1 : ascii)
    (tail : string) :
  ∃ l, _get_option_tuples self (String "-" (String c1 tail)) = ([], Ok l)
       ∧ (length l ≤ 1)%nat ∧ Forall known_option l.
Proof.
  assert (Hfin : ∀ l : list option_tuple,
    (length l ≤ 1)%nat → Forall known_option l →
    ∃ l', ret l = ([], Ok l') ∧ (length l' ≤ 1)%nat ∧ Forall known_option l').
  { intros l H1 H2. by exists l. }
  assert (Hk : ∀ e, known_option (Some HelpAction, "--help", e)).
  { intros e. split; cbn; eauto. }
  assert (Hk' : ∀ e, known_option (Some HelpAction, "-h", e)).
  { intros e. split; cbn; eauto. }
  unfold _get_option_tuples, in_prefix_chars. cbn.
  char_cases.
  - destruct (split_equals tail) as [[p ex] |]; cbn; char_cases;
      case_if; apply Hfin; cbn; try lia; auto.
  - apply Hfin; cbn; try lia; auto.
  - apply Hfin; cbn; try lia; auto.
Qed.

(** [_parse_optional] always returns, and prints nothing. *)
Lemma parse_optional_ok (self : ArgumentParser) (s : string) :
  ∃ r, _parse_optional self s = ([], Ok r)
       ∧ match r with Some t => well_formed t | None => True end.
Proof.
  unfold _parse_optional.
  destruct s as [| c0 tail]; [by exists None |].
  destruct (in_prefix_chars c0) eqn:Hc0; cbn [negb]; [| by exists None].
  apply in_prefix_chars_spec in Hc0 as ->.
  destruct (assoc (String "-" tail) _option_string_actions) as [a |] eqn:Ha.
  { eexists. split; [reflexivity |]. unfold well_formed. rewrite Ha. eauto. }
  destruct tail as [| c1 tail]; [by exists None |].
  cbn [String.length Nat.eqb].
  assert (Htuples :
    ∃ r, (option_tuples ← _get_option_tuples self (String "-" (String c1 tail));
          match option_tuples with
          | _ :: _ :: _ =>
              error self (AmbiguousOption (String "-" (String c1 tail))
                            (map (λ t, snd (fst t)) option_tuples))
          | [option_tuple] => ret (Some option_tuple)
          | [] =>
              if _negative_number_matcher (String "-" (String c1 tail))
                 && negb _has_negative_number_optionals then ret None
              else if contains " "%char (String "-" (String c1 tail))
              then ret None
              else ret (Some (None, String "-" (String c1 tail), None))
          end) = ([], Ok r)
         ∧ match r with Some t => well_formed t | None => True end).
  { destruct (get_option_tuples_short self c1 tail) as (l & -> & Hlen & Hl).
    rewrite bind_nil.
    destruct l as [| t [| t' l]]; [| | cbn in Hlen; lia].
    - repeat case_if; eexists; (split; [reflexivity |]); done.
    - eexists; split; [reflexivity |]. apply known_option_well_formed.
      by inversion Hl. }
  destruct (split_equals (String "-" (String c1 tail))) as [[os e] |];
    [| exact Htuples].
  destruct (assoc os _option_string_actions) as [a' |] eqn:Ha';
    [| exact Htuples].
  eexists. split; [reflexivity |]. unfold well_formed. rewrite Ha'. eauto.
Qed.

(** The scan of a command line returns a pattern as long as the
    command line, and indices within it. *)
Lemma scan_ok (self : ArgumentParser) (i : nat) (args : list string) :
  ∃ pat idx, scan self i args = ([], Ok (pat, idx))
    ∧ length pat = length args
    ∧ Forall (λ p : nat * option_tuple,
                (i ≤ p.1 < i + length args)%nat ∧ well_formed p.2) idx.
Proof.
  revert i. induction args as [| a rest IH]; intros i.
  - exists [], []. by repeat split.
  - cbn [scan]. destruct (String.eqb a "--").
    + eexists _, []. split; [reflexivity |]. split; [| constructor].
      cbn. by rewrite length_map.
    + destruct (parse_optional_ok self a) as (r & -> & Hr).
      rewrite bind_nil.
      destruct (IH (S i)) as (pat & idx & -> & Hlen & Hidx).
      rewrite bind_nil.
      assert (Hidx' : Forall (λ p : nat * option_tuple,
                (i ≤ p.1 < i + length (a :: rest))%nat ∧ well_formed p.2) idx).
      { eapply Forall_impl; [exact Hidx |]. cbn. intros p [? ?].
        split; [lia | done]. }
      destruct r as [t |]; eexists _, _; (split; [reflexivity |]); cbn;
        (split; [by rewrite Hlen |]); [| done].
      constructor; [| done]. cbn. split; [lia | done].
Qed.

(** When the first string is a positional, the pattern starts with an
    [A] and no index is 0. *)
Lemma scan_positional (self : ArgumentParser) (s : string)
    (rest : list string) :
  s ≠ "--" → _parse_optional self s = ret None →
  ∃ pat idx, scan self 0 (s :: rest) = ([], Ok (PA :: pat, idx))
    ∧ length pat = length rest
    ∧ Forall (λ p : nat * option_tuple,
                (1 ≤ p.1 < length (s :: rest))%nat ∧ well_formed p.2) idx.
Proof.
  intros Hs Hp. cbn [scan].
  apply String.eqb_neq in Hs as ->. rewrite Hp, bind_ret.
  destruct (scan_ok self 1 rest) as (pat & idx & -> & Hlen & Hidx).
  rewrite bind_nil. by exists pat, idx.
Qed.

End options.

(** ** Indices *)

Section index_lemmas.
Import argparse parsing.
Implicit Types (l : list nat) (m : list (nat * option_tuple)).

Lemma min_index_elem (x : nat) l : foldr Nat.min x l ∈ x :: l.
Proof.
  induction l as [| y l IH]; cbn; [apply list_elem_of_here |].
  destruct (Nat.min_spec y (foldr Nat.min x l)) as [[_ ->] | [_ ->]].
  - apply list_elem_of_further, list_elem_of_here.
  - apply elem_of_cons in IH as [-> | IH]; [apply list_elem_of_here |].
    by do 2 apply list_elem_of_further.
Qed.

Lemma option_at_elem (i : nat) m :
  i ∈ map fst m → ∃ t, option_at i m = Some t ∧ (i, t) ∈ m.
Proof.
  induction m as [| [j t] m IH]; cbn; [by intros ?%elem_of_nil |].
  intros H. destruct (Nat.eqb_spec i j) as [-> | Hne].
  - exists t. split; [done | apply list_elem_of_here].
  - apply elem_of_cons in H as [-> | H]; [done |].
    destruct (IH H) as (t' & Ht & Hin). exists t'. split; [done |].
    by apply list_elem_of_further.
Qed.

Lemma existsb_eqb_elem (i : nat) l : existsb (Nat.eqb i) l = true ↔ i ∈ l.
Proof.
  rewrite existsb_exists. split.
  - intros (x & Hin & ->%Nat.eqb_eq). by apply list_elem_of_In.
  - intros H. exists i. split; [by apply list_elem_of_In | apply Nat.eqb_refl].
Qed.

Lemma max_list_bound (n : nat) l :
  Forall (λ j, j < n)%nat l → l ≠ [] → (max_list l < n)%nat.
Proof.
  induction 1 as [| x l Hx Hl IH]; [done |]. intros _. cbn.
  destruct l; [cbn; lia |]. specialize (IH ltac:(done)). lia.
Qed.

Lemma max_list_reached (i : nat) l :
  (i ≤ max_list l)%nat → l ≠ [] → ∃ j, j ∈ l ∧ (i ≤ j)%nat.
Proof.
  induction l as [| x l IH]; [done |]. cbn. intros H _.
  destruct (Nat.max_spec x (max_list l)) as [[Hlt Hm] | [Hle Hm]];
    rewrite Hm in H.
  - destruct l as [| y l]; [cbn in *; lia |].
    destruct (IH H ltac:(done)) as (j & Hj & Hij).
    exists j. split; [by apply list_elem_of_further | done].
  - exists x. split; [apply list_elem_of_here | done].
Qed.

Lemma take_drop_take {X} (l : list X) (i n : nat) :
  (i ≤ n)%nat → take i l ++ drop i (take n l) = take n l.
Proof.
  intros H. rewrite <- (take_drop i (take n l)) at 2.
  f_equal. rewrite take_take. f_equal. lia.
Qed.

(** While the loop runs, the index is within the command line and an
    option string is ahead. *)
Lemma loop_condition (arg_strings : list string) m (i : nat) :
  Forall (λ p : nat * option_tuple,
            (p.1 < length arg_strings)%nat ∧ well_formed p.2) m →
  (Z.of_nat i <=? max_option_string_index m)%Z = true →
  (i < length arg_strings)%nat
  ∧ ∃ x l, List.filter (λ index, i <=? index)%nat (option_indices m) = x :: l.
Proof.
  intros Hidx. unfold max_option_string_index, option_indices.
  destruct (map fst m) as [| y l] eqn:Hmap; [intros ?%Z.leb_le; lia |].
  rewrite <- Hmap. intros Hle%Z.leb_le. apply Nat2Z.inj_le in Hle.
  assert (Hne : map fst m ≠ []) by by rewrite Hmap.
  split.
  - eapply Nat.le_lt_trans; [exact Hle |].
    apply max_list_bound; [| done].
    apply Forall_map. eapply Forall_impl; [exact Hidx |]. by intros p [? ?].
  - destruct (max_list_reached _ _ Hle Hne) as (j & Hj & Hij).
    destruct (List.filter _ _) as [| x l'] eqn:Hf; [| eauto].
    assert (Hin : In j (List.filter (λ index, i <=? index)%nat (map fst m))).
    { apply filter_In. split; [by apply list_elem_of_In | by apply Nat.leb_le]. }
    rewrite Hf in Hin. destruct Hin.
Qed.

End index_lemmas.

(** ** The nested functions of [_parse_known_args] *)

Section consume.
Import py argparse parsing.

(** The loop over the explicit argument of an option raises, or
    returns at least one action. *)
Lemma explicit_arguments_spec (e : string) : ∀ action c0 c1 r tuples,
  let m := explicit_arguments action (String c0 (String c1 r)) e tuples in
  (∃ u, m = ([], Raise (ArgumentError u))) ∨ (∃ l, m = ([], Ok l) ∧ l ≠ []).
Proof.
  induction e as [| e0 e IH]; intros [] c0 c1 r tuples;
    cbn [explicit_arguments _match_argument Nat.eqb String.eqb negb andb].
  - rewrite andb_false_r. eauto.
  - rewrite andb_true_r.
    destruct (in_prefix_chars c1); cbn [negb]; [eauto |].
    destruct (assoc (String c0 (String e0 "")) _option_string_actions)
      as [a |]; [| eauto].
    destruct e as [| e1 e].
    + right. eexists. split; [reflexivity |]. by destruct tuples.
    + apply IH.
Qed.

Variable self : ArgumentParser.
Variable arg_strings : list string.
Variable arg_strings_pattern : list pchar.
Variable option_string_indices : list (nat * option_tuple).
Variable ns0 : Namespace.

Hypothesis Hsub : sub_parsers_ok self.
Hypothesis Hlen : length arg_strings_pattern = length arg_strings.
Hypothesis Hidx :
  Forall (λ p : nat * option_tuple,
            (p.1 < length arg_strings)%nat ∧ well_formed p.2)
         option_string_indices.

(** An unknown option becomes an extra; a help option exits. *)
Lemma consume_optional_spec (ex : list string) (i : nat) :
  i ∈ map fst option_string_indices →
  let m := consume_optional self arg_strings arg_strings_pattern
                            option_string_indices ex i in
  clean m ∧ ∀ out ex' j, m = (out, Ok (ex', j)) →
    out = [] ∧ j = S i ∧ ∃ a, arg_strings !! i = Some a ∧ ex' = ex ++ [a].
Proof using Hidx.
  intros Hi. destruct (option_at_elem _ _ Hi) as (t & Ht & Hin).
  rewrite Forall_forall in Hidx. destruct (Hidx _ Hin) as [Hlt Hwf].
  cbn in Hlt. unfold consume_optional. cbn zeta. rewrite Ht.
  destruct t as [[[action |] os] e].
  - apply option_string_cases in Hwf.
    assert (Hos : ∃ c0 c1 r, os = String c0 (String c1 r)).
    { destruct Hwf as [-> | ->]; eauto. }
    destruct Hos as (c0 & c1 & r & ->).
    assert (Hhelp : ∀ (l : list action_tuple) (k : io (list string * nat)),
      l ≠ [] →
      (foldr (λ (_ : action_tuple) (k : io unit), HelpAction_call self ;; k)
             (ret tt) l ;; k)
      = ([PrintHelp (prog self)], Raise (SystemExit 0))).
    { intros [| t l] k Hl; [done |]. reflexivity. }
    destruct e as [e |].
    + destruct (explicit_arguments_spec e action c0 c1 r [])
        as [(u & ->) | (l & -> & Hl)].
      * by rewrite bind_raise.
      * rewrite bind_nil, Hhelp by done. done.
    + rewrite bind_ret, Hhelp by done. done.
  - destruct (lookup_lt_is_Some_2 arg_strings i Hlt) as [a Ha].
    rewrite Ha. split; [done |].
    intros out ex' j [= <- <- <-]. repeat split; eauto.
Qed.

(** The sub-parsers action accepts a name of its map only, and then
    dispatches. *)
Lemma take_action_spec (action : SubParsersAction) (name : string)
    (rest : list string) :
  _subparsers self = Some action →
  let m := take_action action ns0 (name :: rest) in
  clean m ∧ ∀ out ns', m = (out, Ok ns') →
    out = [] ∧ is_Some (assoc name (_name_parser_map action))
    ∧ ns' = dispatch action ns0 name rest.
Proof using Hsub.
  intros Haction. unfold take_action, _get_values, _check_value.
  destruct (assoc name (_name_parser_map action)) as [f |] eqn:Hf; [| done].
  rewrite !bind_ret. cbn [SubParsersAction_call]. rewrite Hf.
  destruct (Hsub action name f Haction Hf rest) as [Hclean Hok].
  destruct (f rest) as [o [[subns ex] | e |]] eqn:Hrun.
  - destruct (Hok _ _ _ eq_refl) as (-> & Hattrs & Hun & ->).
    rewrite bind_nil. split; [done |].
    intros out ns' [= <- <-]. repeat split; [eauto |].
    unfold dispatch, setattr. cbn. rewrite Hattrs, (left_id_L ∅ (∪)).
    by destruct rest.
  - split; [| done]. by apply exits_cleanly_clean in Hclean.
  - done.
Qed.

Lemma consume_positionals_spec (st : state) (i : nat) :
  (i ≤ length arg_strings)%nat → untouched self arg_strings ns0 st i →
  let m := consume_positionals arg_strings arg_strings_pattern st i in
  clean m ∧ ∀ out st' j, m = (out, Ok (st', j)) →
    out = [] ∧ ((st' = st ∧ j = i)
                ∨ (j = length arg_strings ∧ (i < j)%nat
                   ∧ dispatched self arg_strings ns0 st')).
Proof using Hsub Hlen.
  intros Hi (Hpos & Hns & Hex). unfold consume_positionals.
  rewrite Hpos. destruct (_subparsers self) as [action |] eqn:Haction; cbn.
  2: { split; [done |]. intros out st' j [= <- <- <-]. auto. }
  destruct (skip_dashes (drop i arg_strings_pattern)) as [| [] ?] eqn:Hskip;
    try (split; [done |]; intros out st' j [= <- <- <-]; by auto).
  assert (Hlt : (i < length arg_strings)%nat).
  { destruct (decide (i < length arg_strings)%nat); [done |].
    rewrite drop_ge in Hskip by lia. done. }
  rewrite length_drop, Hlen, firstn_all2 by (rewrite length_drop; lia).
  destruct (lookup_lt_is_Some_2 arg_strings i Hlt) as [name Hname].
  rewrite (drop_S _ _ _ Hname), Hns.
  destruct (take_action_spec action name (drop (S i) arg_strings) Haction)
    as [Hclean Hok].
  destruct (take_action _ _ _) as [o [ns' | e |]] eqn:Hrun.
  - destruct (Hok _ _ eq_refl) as (-> & Hin & ->). rewrite bind_nil.
    split; [done |]. intros out st' j [= <- <- <-].
    split; [done |]. right. repeat split; [lia.. |].
    exists action, i, name. by repeat split.
  - split; [exact Hclean | done].
  - done.
Qed.

Lemma consume_positionals_done (st : state) (i : nat) :
  positionals st = None →
  consume_positionals arg_strings arg_strings_pattern st i = ([], Ok (st, i)).
Proof using. unfold consume_positionals. by intros ->. Qed.

End consume.

(** ** The loop of [_parse_known_args] *)

Section loop.
Import py argparse parsing.

Variable self : ArgumentParser.
Variable arg_strings : list string.
Variable arg_strings_pattern : list pchar.
Variable option_string_indices : list (nat * option_tuple).
Variable ns0 : Namespace.

Hypothesis Hsub : sub_parsers_ok self.
Hypothesis Hlen : length arg_strings_pattern = length arg_strings.
Hypothesis Hidx :
  Forall (λ p : nat * option_tuple,
            (p.1 < length arg_strings)%nat ∧ well_formed p.2)
         option_string_indices.

#[local] Abbreviation untouched' := (untouched self arg_strings ns0).
#[local] Abbreviation progress' := (progress self arg_strings ns0).

(** With a bound that covers the command line, the loop does not run
    out of it; it keeps [progress], and prints nothing when it returns. *)
Lemma consume_all_spec (fuel : nat) : ∀ st i,
  (length arg_strings ≤ i + fuel)%nat → progress' st i →
  let m := consume_all self arg_strings arg_strings_pattern
                       option_string_indices fuel st i in
  clean m ∧ ∀ out st' j, m = (out, Ok (st', j)) → out = [] ∧ progress' st' j.
Proof using Hsub Hlen Hidx.
  induction fuel as [| fuel IH]; intros st i Hfuel Hprog; cbn [consume_all];
    destruct (Z.of_nat i <=? _)%Z eqn:Hcond;
    try (split; [done |]; intros out st' j [= <- <- <-]; by auto).
  { apply (loop_condition arg_strings) in Hcond as [Hlt _]; [lia | done]. }
  destruct (loop_condition arg_strings _ _ Hidx Hcond)
    as (Hlt & x & l & Hfilter).
  destruct Hprog as [[_ Hun] | [-> _]]; [| lia].
  rewrite Hfilter. cbn [min_index]. rewrite bind_ret.
  set (next := foldr Nat.min x l).
  assert (Hnext : next ∈ option_indices option_string_indices
                  ∧ (i ≤ next)%nat).
  { pose proof (min_index_elem x l) as Hin. fold next in Hin.
    rewrite <- Hfilter in Hin.
    apply list_elem_of_In, filter_In in Hin as [Hin Hle].
    split; [by apply list_elem_of_In | by apply Nat.leb_le]. }
  destruct Hnext as [Hnext_in Hnext_le].
  (* an iteration from the option string at [start] on *)
  assert (Hstep : ∀ (st2 : state) (start : nat),
    start ∈ option_indices option_string_indices → (i ≤ start)%nat →
    untouched' st2 start →
    let m :=
      ('(extras', start_index) ←
         consume_optional self arg_strings arg_strings_pattern
                          option_string_indices (extras st2) start;
       consume_all self arg_strings arg_strings_pattern
         option_string_indices fuel
         {| ns := ns st2; extras := extras'; positionals := positionals st2 |}
         start_index) in
    clean m ∧ ∀ out st' j, m = (out, Ok (st', j)) → out = [] ∧ progress' st' j).
  { intros st2 start Hstart Hle (Hpos2 & Hns2 & Hex2).
    destruct (consume_optional_spec self arg_strings arg_strings_pattern
                option_string_indices Hidx (extras st2) start Hstart)
      as [Hclean Hok].
    destruct (consume_optional _ _ _ _ _ _) as [o [[ex' j'] | e |]] eqn:Hrun.
    - destruct (Hok _ _ _ eq_refl) as (-> & -> & a & Ha & ->).
      rewrite bind_nil. apply IH.
      + apply lookup_lt_Some in Ha. lia.
      + left. split; [by apply lookup_lt_Some in Ha |].
        repeat split; cbn; [done.. |].
        rewrite Hex2. symmetry. by apply take_S_r.
    - split; [exact Hclean | done].
    - done. }
  (* an iteration once the positionals are done *)
  assert (Hrest : ∀ st1, untouched' st1 i →
    let m :=
      (let '(st2, start_index) :=
         if negb (existsb (Nat.eqb i) (option_indices option_string_indices))
         then ({| ns := ns st1;
                  extras := extras st1 ++ drop i (take next arg_strings);
                  positionals := positionals st1 |}, next)
         else (st1, i) in
       '(extras', start_index) ←
         consume_optional self arg_strings arg_strings_pattern
                          option_string_indices (extras st2) start_index;
       consume_all self arg_strings arg_strings_pattern
         option_string_indices fuel
         {| ns := ns st2; extras := extras'; positionals := positionals st2 |}
         start_index) in
    clean m ∧ ∀ out st' j, m = (out, Ok (st', j)) → out = [] ∧ progress' st' j).
  { intros st1 (Hpos & Hns & Hex).
    destruct (existsb _ _) eqn:Hex_i; cbn [negb].
    - apply Hstep; [by apply existsb_eqb_elem | lia | done].
    - apply Hstep; [done | done |].
      repeat split; cbn; [done.. |].
      rewrite Hex. by apply take_drop_take. }
  destruct (Nat.eqb_spec i next) as [Heq | Hne]; cbn [negb].
  - rewrite bind_ret. by apply Hrest.
  - destruct (consume_positionals_spec self arg_strings arg_strings_pattern
                ns0 Hsub Hlen st i ltac:(lia) Hun) as [Hclean Hok].
    destruct (consume_positionals _ _ _ _) as [o [[st1 pe] | e |]] eqn:Hrun.
    + destruct (Hok _ _ _ eq_refl) as (-> & [[-> ->] | (-> & Hlt' & Hdisp)]).
      * rewrite bind_nil, bind_ret, Nat.ltb_irrefl. by apply Hrest.
      * rewrite bind_nil, bind_ret. apply Nat.ltb_lt in Hlt' as ->.
        apply IH; [lia |]. by right.
    + split; [exact Hclean | done].
    + done.
Qed.

End loop.

(** ** Parsers *)

Section parser.
Import py argparse parsing.

Variable self : ArgumentParser.
Hypothesis Hsub : sub_parsers_ok self.

Lemma error_exits {A} (e : usage_error) :
  @error A self e = ([PrintUsage (prog self); PrintError (prog self) e],
                     Raise (SystemExit 2)).
Proof using. reflexivity. Qed.

Lemma _parse_known_args_spec (args : list string) (ns0 : Namespace) :
  let m := _parse_known_args self args ns0 in
  clean m ∧ ∀ out ns' ex, m = (out, Ok (ns', ex)) →
    out = [] ∧ parsed self args ns0 ns' ex.
Proof using Hsub.
  unfold _parse_known_args.
  destruct (scan_ok self 0 args) as (pat & idx & -> & Hlen & Hidx).
  rewrite bind_nil.
  assert (Hidx' : Forall (λ p : nat * option_tuple,
            (p.1 < length args)%nat ∧ well_formed p.2) idx).
  { eapply Forall_impl; [exact Hidx |]. cbn. intros p [? ?].
    split; [lia | done]. }
  set (st0 := {| ns := ns0; extras := []; positionals := _subparsers self |}).
  destruct (consume_all_spec self args pat idx ns0 Hsub Hlen Hidx'
              (S (length args)) st0 0 ltac:(lia)) as [Hclean Hok].
  { left. split; [lia |]. by repeat split. }
  destruct (consume_all _ _ _ _ _ _ _) as [o [[st i] | e |]] eqn:Hrun;
    [| split; [exact Hclean | done] | done].
  destruct (Hok _ _ _ eq_refl) as (-> & Hprog). rewrite bind_nil.
  (* the result, from the state after the last call of consume_positionals *)
  assert (Hend : ∀ st' j, (j ≤ length args)%nat →
    (untouched self args ns0 st' j
     ∨ (j = length args ∧ dispatched self args ns0 st')) →
    let m :=
      (let extras := extras st' ++ drop j args in
       let required_actions :=
         match positionals st' with
         | Some action => if required action then [dest action] else []
         | None => []
         end in
       match required_actions with
       | _ :: _ => error self (RequiredArguments required_actions)
       | [] => ret (ns st', extras)
       end : io (Namespace * list string)) in
    clean m ∧ ∀ out ns' ex, m = (out, Ok (ns', ex)) →
      out = [] ∧ parsed self args ns0 ns' ex).
  { intros st' j Hj [(Hpos & Hns & Hex) | (-> & Hdisp)]; cbn zeta.
    - assert (Hret : ∀ out ns' ex,
        ret (ns st', extras st' ++ drop j args) = (out, Ok (ns', ex)) →
        out = [] ∧ parsed self args ns0 ns' ex).
      { intros out ns' ex [= <- <- <-]. split; [done |]. left.
        split; [done |]. rewrite Hex. apply take_drop. }
      destruct (positionals st') as [action |]; [| done].
      destruct (required action); [| done]. by rewrite error_exits.
    - destruct Hdisp
        as (action & i0 & name & Ha & -> & Hname & Hin & Hex & Hns).
      split; [done |]. intros out ns' ex [= <- <- <-]. split; [done |].
      right. exists action, i0, name. repeat split; try done.
      by rewrite drop_all, app_nil_r. }
  destruct Hprog as [[Hi Hun] | [-> Hdisp]].
  - destruct (consume_positionals_spec self args pat ns0 Hsub Hlen st i Hi Hun)
      as [Hclean' Hok'].
    destruct (consume_positionals _ _ _ _) as [o [[st' j] | e |]] eqn:Hrun';
      [| split; [exact Hclean' | done] | done].
    destruct (Hok' _ _ _ eq_refl) as (-> & [[-> ->] | (-> & Hlt & Hdisp)]);
      rewrite bind_nil; apply Hend; auto.
  - destruct Hdisp as (action & i0 & name & Ha & Hpos & Hrest).
    rewrite consume_positionals_done, bind_nil by done.
    apply Hend; [done |]. right. split; [done |].
    by exists action, i0, name.
Qed.

(** [parse_known_args] returns or exits. When it returns it has
    printed nothing, and either no argument was a command and all are
    extras, or one was, and the others are extras. *)
Lemma parse_known_args_spec (args : list string) :
  let m := parse_known_args self args in
  exits_cleanly m ∧ ∀ out ns' ex, m = (out, Ok (ns', ex)) →
    out = [] ∧ _unrecognized_args ns' = None
    ∧ ((attrs ns' = default_attrs self ∧ ex = args)
       ∨ ∃ action i0 name,
           _subparsers self = Some action
           ∧ args !! i0 = Some name
           ∧ is_Some (assoc name (_name_parser_map action))
           ∧ attrs ns' = <[dest action := PyStr name]> (default_attrs self)
           ∧ ex = take i0 args ++ drop (S i0) args).
Proof using Hsub.
  unfold parse_known_args. cbn zeta.
  set (ns0 := match _subparsers self with
              | Some action => _ | None => _ end).
  assert (Hns0 : attrs ns0 = default_attrs self
                 ∧ _unrecognized_args ns0 = None).
  { unfold ns0, default_attrs. destruct (_subparsers self); [| done].
    cbn. by rewrite lookup_empty. }
  destruct Hns0 as [Hattrs Hun].
  destruct (_parse_known_args_spec args ns0) as [Hclean Hok].
  destruct (_parse_known_args self args ns0) as [o [[ns' ex] | e |]] eqn:Hrun.
  - destruct (Hok _ _ _ eq_refl) as (-> & Hcases).
    cbn [catch_argument_error]. rewrite bind_nil.
    destruct Hcases
      as [[-> ->] | (action & i0 & name & Ha & Hname & Hin & -> & ->)].
    + rewrite Hun. split; [done |]. intros out ns' ex [= <- <- <-].
      repeat split; auto.
    + split; [by destruct (_unrecognized_args _) |].
      intros out ns' ex. cbn.
      destruct (drop (S i0) args) as [| a rest] eqn:Hdrop.
      * rewrite Hun. intros [= <- <- <-]. repeat split; [done |].
        right. exists action, i0, name.
        rewrite Hdrop, app_nil_r, <- Hattrs. by repeat split.
      * intros [= <- <- <-]. repeat split.
        right. exists action, i0, name. cbn.
        rewrite Hdrop, Hun, <- Hattrs. by repeat split.
  - by destruct e.
  - done.
Qed.

End parser.

(** ** The parser of [parse_cli] *)

Section cli_properties.
Import py argparse parsing invariants.

(** A parser without sub-commands returns every argument as an extra. *)
Lemma leaf_parser_ok (p : ArgumentParser) :
  _subparsers p = None → sub_parser_ok (parse_known_args p).
Proof.
  intros Hp a.
  assert (Hsub : sub_parsers_ok p).
  { intros action name f H. by rewrite Hp in H. }
  destruct (parse_known_args_spec p Hsub a) as [Hclean Hok].
  split; [exact Hclean |]. intros out ns' ex Hrun.
  destruct (Hok _ _ _ Hrun)
    as (-> & Hun & [[Hattrs ->] | (action & ? & ? & H & _)]).
  - unfold default_attrs in Hattrs. rewrite Hp in Hattrs. done.
  - by rewrite Hp in H.
Qed.

Lemma assoc_commands (name : string) (f : parse_fn) :
  assoc name (_name_parser_map cli.commands) = Some f →
  subcommand name
  ∧ (f = parse_known_args cli.list_ ∨ f = parse_known_args cli.add).
Proof.
  unfold subcommand. cbn [assoc _name_parser_map cli.commands].
  destruct (String.eqb_spec name "list"); [intros [= <-]; auto |].
  destruct (String.eqb_spec name "ls"); [intros [= <-]; auto |].
  destruct (String.eqb_spec name "add"); [intros [= <-]; auto |].
  done.
Qed.

Lemma assoc_commands_None (s : string) :
  ¬ subcommand s → assoc s (_name_parser_map cli.commands) = None.
Proof.
  intros Hs. destruct (assoc _ _) as [f |] eqn:Hf; [| done].
  by destruct (assoc_commands _ _ Hf).
Qed.

Lemma cli_sub_parsers_ok : sub_parsers_ok cli.parser.
Proof.
  intros action name f [= <-] Hf.
  destruct (assoc_commands _ _ Hf) as [_ [-> | ->]]; by apply leaf_parser_ok.
Qed.

(** [parse_cli] returns or exits. It returns, having printed nothing,
    on the empty command line and on a single sub-command only. *)
Lemma parse_cli_spec (argv : list string) :
  exits_cleanly (cli.parse_cli argv)
  ∧ ∀ out args, cli.parse_cli argv = (out, Ok args) →
      out = []
      ∧ ((argv = [] ∧ command args = Some PyNone)
         ∨ ∃ c, argv = [c] ∧ subcommand c ∧ command args = Some (PyStr c)).
Proof.
  unfold cli.parse_cli, parse_args.
  destruct (parse_known_args_spec cli.parser cli_sub_parsers_ok argv)
    as [Hclean Hok].
  destruct (parse_known_args cli.parser argv) as [o [[ns' ex] | e |]] eqn:Hrun;
    [| split; [exact Hclean | done] | done].
  destruct (Hok _ _ _ eq_refl) as (-> & Hun & Hcases). rewrite bind_nil.
  destruct ex as [| x ex]; [| by rewrite error_exits].
  split; [done |]. intros out args [= <- <-]. split; [done |].
  unfold command.
  destruct Hcases as [[Hattrs <-]
    | (action & i0 & name & [= <-] & Hname & [f Hf] & Hattrs & Hex)];
    rewrite Hattrs.
  - left. split; [done |]. apply lookup_singleton_eq.
  - right. exists name.
    symmetry in Hex. apply app_eq_nil in Hex as [Htake Hdrop].
    pose proof (lookup_lt_Some _ _ _ Hname) as Hlt.
    destruct argv as [| a [| b argv]]; cbn in Hlt; [lia | |].
    + destruct i0; [| cbn in Hlt; lia]. cbn in Hname. injection Hname as ->.
      split; [done |]. split; [| apply lookup_insert_eq].
      by destruct (assoc_commands _ _ Hf).
    + destruct i0; cbn in Htake, Hdrop; done.
Qed.

Lemma consume_positionals_invalid (action : SubParsersAction) (s : string)
    (rest : list string) (pat : list pchar) (st : state) :
  positionals st = Some action → length pat = length rest →
  assoc s (_name_parser_map action) = None →
  consume_positionals (s :: rest) (PA :: pat) st 0
  = ([], Raise (ArgumentError (InvalidChoice s))).
Proof.
  intros Hpos Hlen Hs. unfold consume_positionals. rewrite Hpos.
  cbn [drop _match_arguments_partial skip_dashes length]. rewrite Hlen.
  cbn [take]. unfold take_action, _get_values, _check_value. by rewrite Hs.
Qed.

(** A first string that is a positional and no sub-command is an
    invalid choice, whatever follows it. *)
Lemma parse_known_args_invalid (s : string) (rest : list string)
    (ns0 : Namespace) :
  positional s → ¬ subcommand s →
  _parse_known_args cli.parser (s :: rest) ns0
  = ([], Raise (ArgumentError (InvalidChoice s))).
Proof.
  intros [Hdash Hpos] Hs%assoc_commands_None. unfold _parse_known_args.
  destruct (scan_positional cli.parser s rest Hdash Hpos)
    as (pat & idx & -> & Hlen & Hidx).
  rewrite bind_nil.
  set (st0 := {| ns := ns0; extras := [];
                 positionals := _subparsers cli.parser |}).
  assert (Hinv : consume_positionals (s :: rest) (PA :: pat) st0 0
                 = ([], Raise (ArgumentError (InvalidChoice s)))).
  { by apply (consume_positionals_invalid cli.commands). }
  cbn [consume_all].
  destruct (Z.of_nat 0 <=? _)%Z eqn:Hcond.
  - assert (Hidx' : Forall (λ p : nat * option_tuple,
              (p.1 < length (s :: rest))%nat ∧ well_formed p.2) idx).
    { eapply Forall_impl; [exact Hidx |]. cbn. intros p [? ?].
      split; [lia | done]. }
    destruct (loop_condition (s :: rest) idx 0 Hidx' Hcond)
      as (_ & x & l & Hfilter).
    rewrite Hfilter. cbn [min_index]. rewrite bind_ret.
    pose proof (min_index_elem x l) as Hin. rewrite <- Hfilter in Hin.
    apply list_elem_of_In, filter_In in Hin as [Hin _].
    apply list_elem_of_In, list_elem_of_fmap in Hin as (p & Hp & Hin).
    rewrite Forall_forall in Hidx. destruct (Hidx p Hin) as [[Hge _] _].
    destruct (Nat.eqb_spec 0 (foldr Nat.min x l)) as [Heq | _]; [lia |].
    cbn [negb]. by rewrite Hinv.
  - rewrite bind_ret. by rewrite Hinv.
Qed.

Lemma parse_cli_invalid (s : string) (rest : list string) :
  positional s → ¬ subcommand s →
  cli.parse_cli (s :: rest)
  = ([PrintUsage "PlanIt"; PrintError "PlanIt" (InvalidChoice s)],
     Raise (SystemExit 2)).
Proof.
  intros Hpos Hs. unfold cli.parse_cli, parse_args, parse_known_args.
  cbn zeta. by rewrite parse_known_args_invalid.
Qed.

(** Runs of the parser: help, from the main parser and from a
    sub-command; arguments that are left over; [--] before and alone. *)
Example parse_cli_help :
  cli.parse_cli ["-h"] = ([PrintHelp "PlanIt"], Raise (SystemExit 0))
  ∧ cli.parse_cli ["--he"] = ([PrintHelp "PlanIt"], Raise (SystemExit 0))
  ∧ cli.parse_cli ["ls"; "-h"]
    = ([PrintHelp "PlanIt list"], Raise (SystemExit 0)).
Proof. by vm_compute. Qed.

Example parse_cli_unrecognized :
  cli.parse_cli ["add"; "milk"]
  = ([PrintUsage "PlanIt";
      PrintError "PlanIt" (UnrecognizedArguments ["milk"])],
     Raise (SystemExit 2))
  ∧ cli.parse_cli ["-x"; "list"]
    = ([PrintUsage "PlanIt";
        PrintError "PlanIt" (UnrecognizedArguments ["-x"])],
       Raise (SystemExit 2)).
Proof. by vm_compute. Qed.

Example parse_cli_double_dash :
  cli.parse_cli ["--"; "list"]
  = ([PrintUsage "PlanIt"; PrintError "PlanIt" (InvalidChoice "--")],
     Raise (SystemExit 2))
  ∧ cli.parse_cli ["--"]
    = ([PrintUsage "PlanIt";
        PrintError "PlanIt" (UnrecognizedArguments ["--"])],
       Raise (SystemExit 2)).
Proof. by vm_compute. Qed.

(** C5. [parse_cli] knows the commands "list", "ls" and "add" and no
    other, and the command is optional: the empty command line and each
    command alone parse, with [command] set to [None] and to the command
    as typed; a command line that starts with any other positional
    argument is rejected as an invalid choice, with exit status 2; and
    no other command line parses. *)
Theorem parse_cli_subcommands :
  (∃ args, cli.parse_cli [] = ([], Ok args) ∧ command args = Some PyNone)
  ∧ (∀ c, subcommand c →
       ∃ args, cli.parse_cli [c] = ([], Ok args)
               ∧ command args = Some (PyStr c))
  ∧ (∀ s rest, positional s → ¬ subcommand s →
       cli.parse_cli (s :: rest)
       = ([PrintUsage "PlanIt"; PrintError "PlanIt" (InvalidChoice s)],
          Raise (SystemExit 2)))
  ∧ (∀ argv, argv = [] ∨ (∃ c, subcommand c ∧ argv = [c])
             ∨ ∃ out status,
                 cli.parse_cli argv = (out, Raise (SystemExit status))).
Proof.
  split; [| split; [| split]].
  - eexists. split; [vm_compute; reflexivity | reflexivity].
  - intros c [-> | [-> | ->]];
      (eexists; split; [vm_compute; reflexivity | reflexivity]).
  - apply parse_cli_invalid.
  - intros argv. destruct (parse_cli_spec argv) as [Hclean Hok].
    destruct (cli.parse_cli argv) as [o [args | e |]] eqn:Hrun.
    + destruct (Hok _ _ eq_refl) as (_ & [[-> _] | (c & -> & Hc & _)]); eauto.
    + destruct e; try done. eauto.
    + done.
Qed.

Lemma parse_cli_subcommands_witness :
  cli.parse_cli ["remove"; "-h"]
  = ([PrintUsage "PlanIt"; PrintError "PlanIt" (InvalidChoice "remove")],
     Raise (SystemExit 2)).
Proof.
  apply (proj1 (proj2 (proj2 parse_cli_subcommands))).
  - split; [discriminate | reflexivity].
  - intros [H | [H | H]]; discriminate H.
Defined.

End cli_properties.

(** ** [main] *)

Section main_properties.
Import py argparse parsing invariants.

(** What [main] does after a successful parse depends on the command
    only. *)
Lemma main_after_parse (argv : list string) (args : Namespace) (c : pyval) :
  cli.parse_cli argv = ([], Ok args) → command args = Some c →
  main.main argv
  = (if py_eq c (PyStr "list") || py_eq c (PyStr "ls") || py_eq c PyNone
     then ([Print "All Todos:"], Ok tt)
     else if py_eq c (PyStr "add")
     then ([], Raise (AssertionError "Adding items not supported"))
     else ([], Raise (AssertionError "Unreachable"))).
Proof.
  intros Hrun Hc. unfold main.main. rewrite Hrun, bind_nil.
  unfold main.command_is, getattr. unfold command in Hc. rewrite Hc.
  rewrite !bind_ret.
  destruct (py_eq c (PyStr "list")); [reflexivity |].
  destruct (py_eq c (PyStr "ls")); [reflexivity |].
  destruct (py_eq c PyNone); [reflexivity |].
  by destruct (py_eq c (PyStr "add")).
Qed.

(** C1. When the parsed command is "add", [main] stops on the failed
    assertion "Adding items not supported": it does not return, and it
    has printed and done nothing before. *)
Theorem main_add_aborts (argv : list string) (out : list event)
    (args : Namespace) :
  cli.parse_cli argv = (out, Ok args) →
  command args = Some (PyStr "add") →
  main.main argv = ([], Raise (AssertionError "Adding items not supported")).
Proof.
  intros Hrun Hc.
  destruct (parse_cli_spec argv) as [_ Hok].
  destruct (Hok _ _ Hrun) as [-> _].
  by rewrite (main_after_parse _ _ _ Hrun Hc).
Qed.

Lemma main_add_aborts_witness :
  main.main ["add"]
  = ([], Raise (AssertionError "Adding items not supported")).
Proof.
  eapply (main_add_aborts ["add"]).
  - vm_compute. reflexivity.
  - reflexivity.
Defined.

(** C8. Without a sub-command the parse succeeds with [command] set to
    [None], and [main] does what it does for "list" and for "ls": it
    prints the header of the task list and returns. *)
Theorem main_without_command :
  (∃ args, cli.parse_cli [] = ([], Ok args) ∧ command args = Some PyNone)
  ∧ main.main [] = ([Print "All Todos:"], Ok tt)
  ∧ main.main [] = main.main ["list"]
  ∧ main.main [] = main.main ["ls"].
Proof.
  split; [| by vm_compute].
  eexists. split; [vm_compute; reflexivity | reflexivity].
Qed.

(** [main] returns after the header, exits from the parser, or stops
    on the assertion of the "add" branch. *)
Lemma main_outcomes (argv : list string) :
  main.main argv = ([Print "All Todos:"], Ok tt)
  ∨ main.main argv
    = ([], Raise (AssertionError "Adding items not supported"))
  ∨ ∃ out status, main.main argv = (out, Raise (SystemExit status)).
Proof.
  destruct (parse_cli_spec argv) as [Hclean Hok].
  destruct (cli.parse_cli argv) as [o [args | e |]] eqn:Hrun.
  - destruct (Hok _ _ eq_refl) as (-> & [[-> Hc] | (c & -> & Hsub & Hc)]);
      rewrite (main_after_parse _ _ _ Hrun Hc).
    + by left.
    + destruct Hsub as [-> | [-> | ->]]; cbn; auto.
  - unfold main.main. rewrite Hrun, bind_raise.
    destruct e; try done. eauto.
  - done.
Qed.

(** C9. A successful parse leaves in [command] one of "list", "ls",
    "add" and [None], so the last branch of [main] is never taken: no
    run of [main] ends on the assertion "Unreachable". *)
Theorem main_unreachable_is_dead (argv : list string) :
  (∀ out args, cli.parse_cli argv = (out, Ok args) →
     known_command (command args))
  ∧ outcome (main.main argv) ≠ Raise (AssertionError "Unreachable").
Proof.
  split.
  - intros out args Hrun. destruct (parse_cli_spec argv) as [_ Hok].
    unfold known_command.
    destruct (Hok _ _ Hrun) as (_ & [[_ ->] | (c & _ & Hsub & ->)]); [auto |].
    destruct Hsub as [-> | [-> | ->]]; auto.
  - destruct (main_outcomes argv) as [-> | [-> | (out & status & ->)]];
      discriminate.
Qed.

Lemma main_unreachable_is_dead_witness :
  known_command (Some (PyStr "add")).
Proof.
  refine (proj1 (main_unreachable_is_dead ["add"]) []
            {| attrs := <["command" := PyStr "add"]> {["command" := PyNone]};
               _unrecognized_args := None |} _).
  vm_compute. reflexivity.
Defined.

End main_properties.

(** * Further properties *)

(** ** Calls of [Task] *)

Section task_calls.
Import py task behaviour.

Lemma bound_twice_false (args : list pyval) (kwargs : gmap string pyval) :
  bound_twice args kwargs = false ↔ no_clash args kwargs.
Proof.
  unfold bound_twice, no_clash. rewrite orb_false_iff.
  rewrite bool_decide_eq_false, <- eq_None_not_Some.
  apply and_iff_compat_l.
  rewrite <- not_true_iff_false, existsb_exists. split.
  - intros Hno i p Hp Hi. apply eq_None_not_Some. intros Hsome.
    apply Hno. exists p. split; [| by apply bool_decide_eq_true].
    apply list_elem_of_In, list_elem_of_lookup. exists i.
    by rewrite lookup_take_lt.
  - intros Hno (p & Hin & Hsome%bool_decide_eq_true).
    apply list_elem_of_In, list_elem_of_lookup in Hin as (i & Hi).
    pose proof (lookup_lt_Some _ _ _ Hi) as Hlt. rewrite length_take in Hlt.
    rewrite lookup_take_lt in Hi by lia.
    rewrite (Hno i p Hi ltac:(lia)) in Hsome. by destruct Hsome.
Qed.

Lemma argument_Some (args : list pyval) (kwargs : gmap string pyval)
    (i : nat) (p : string) :
  is_Some (argument args kwargs i p)
  ↔ (i < length args)%nat ∨ is_Some (kwargs !! p).
Proof.
  unfold argument. destruct (args !! i) as [v |] eqn:Hi.
  - apply lookup_lt_Some in Hi. split; eauto.
  - apply lookup_ge_None in Hi.
    split; [by right | intros [? | ?]; [lia | done]].
Qed.

Lemma extra_keywords_id (kwargs : gmap string pyval) :
  (∀ p, p ∈ parameters → kwargs !! p = None) → extra_keywords kwargs = kwargs.
Proof.
  intros Hno. apply map_eq. intros k.
  destruct (decide (k ∈ parameters)) as [Hk | Hk].
  - by rewrite extra_keywords_parameter, Hno.
  - by apply extra_keywords_other.
Qed.

Lemma new_six (i n s e r tg : pyval) (kwargs : gmap string pyval) :
  kwargs !! "self" = None → (∀ p, p ∈ parameters → kwargs !! p = None) →
  new [i; n; s; e; r; tg] kwargs = Ok (__init__ i n s e r tg kwargs).
Proof.
  intros Hself Hno. unfold new.
  assert (bound_twice [i; n; s; e; r; tg] kwargs = false) as ->.
  { apply bound_twice_false. split; [done |]. intros j p Hp _.
    apply Hno, list_elem_of_lookup. eauto. }
  by rewrite extra_keywords_id.
Qed.

(** X1. A call of [Task] is accepted exactly when no keyword repeats
    [self] or a parameter already given by position, at most six
    positional arguments are given, and [id] and [name] are each given by
    position or by keyword. A call that is not accepted raises
    [TypeError], and nothing else. *)
Theorem Task_call_accepted_iff (args : list pyval)
    (kwargs : gmap string pyval) :
  ((∃ t, new args kwargs = Ok t)
   ↔ no_clash args kwargs ∧ (length args ≤ 6)%nat
     ∧ ((1 ≤ length args)%nat ∨ is_Some (kwargs !! "id"))
     ∧ ((2 ≤ length args)%nat ∨ is_Some (kwargs !! "name")))
  ∧ ((∃ t, new args kwargs = Ok t)
     ∨ ∃ e, new args kwargs = Raise (TypeError e)).
Proof.
  split.
  - rewrite <- bound_twice_false. unfold new.
    destruct (bound_twice args kwargs);
      [split; [by intros [] | by intros []] |].
    change (length parameters) with 6%nat.
    destruct (Nat.ltb_spec 6 (length args)) as [Hlt | Hle].
    { split; [by intros [] | intros (_ & ? & _); lia]. }
    pose proof (argument_Some args kwargs 0 "id") as Hid.
    pose proof (argument_Some args kwargs 1 "name") as Hname.
    destruct (argument args kwargs 0 "id") as [i |];
      destruct (argument args kwargs 1 "name") as [n |].
    + split; [intros _ | eauto]. repeat split; [done | |].
      * apply Hid. eauto.
      * apply Hname. eauto.
    + split; [by intros [] |]. intros (_ & _ & _ & H).
      apply Hname in H. by destruct H.
    + split; [by intros [] |]. intros (_ & _ & H & _).
      apply Hid in H. by destruct H.
    + split; [by intros [] |]. intros (_ & _ & H & _).
      apply Hid in H. by destruct H.
  - unfold new. destruct (bound_twice _ _); [eauto |].
    destruct (_ <? _)%nat; [eauto |].
    destruct (argument args kwargs 0 "id"), (argument args kwargs 1 "name");
      eauto.
Qed.



(** X3. Positional and keyword arguments are interchangeable: whatever
    number of leading arguments is given by position, giving the rest by
    keyword constructs the same task as giving all six by position. *)
Theorem Task_by_keyword (i n s e r tg : pyval) (k : nat) :
  new (take k [i; n; s; e; r; tg])
      (keywords (drop k parameters) (drop k [i; n; s; e; r; tg]))
  = new [i; n; s; e; r; tg] ∅.
Proof.
  do 7 (destruct k as [| k]; [vm_compute; reflexivity |]).
  reflexivity.
Qed.

(** X4. A task can be rebuilt from what it holds: passing the six fields
    and the attributes of a constructed task to [Task] again gives the
    same task. *)
Theorem Task_rebuilt (args : list pyval) (kwargs : gmap string pyval)
    (t : Task) :
  new args kwargs = Ok t →
  new [id t; name t; start t; end_ t; repeat t; tags t] (attributes t) = Ok t.
Proof.
  intros Hnew.
  assert (Hclash : bound_twice args kwargs = false).
  { unfold new in Hnew. by destruct (bound_twice args kwargs). }
  apply bound_twice_false in Hclash as [Hself _].
  rewrite new_six.
  - by destruct t.
  - rewrite (new_attributes _ _ _ Hnew).
    rewrite extra_keywords_other; [done |].
    intros Hin.
    repeat (apply elem_of_cons in Hin as [Hin | Hin]; [discriminate |]).
    by apply elem_of_nil in Hin.
  - intros p Hp. rewrite (new_attributes _ _ _ Hnew).
    by apply extra_keywords_parameter.
Qed.

Lemma Task_rebuilt_witness :
  new [PyInt 1; PyStr "t"; PyNone; PyNone; PyNone; PyList []]
      samples.priority_3
  = Ok (__init__ (PyInt 1) (PyStr "t") PyNone PyNone PyNone (PyList [])
                 samples.priority_3).
Proof.
  refine (Task_rebuilt [PyInt 1; PyStr "t"] samples.priority_3
            (__init__ (PyInt 1) (PyStr "t") PyNone PyNone PyNone (PyList [])
                      samples.priority_3) _).
  vm_compute. reflexivity.
Defined.

End task_calls.

(** ** What a parser prints *)

(** One step of a computation that starts with [ret]. *)
Ltac io_step :=
  match goal with
  | |- context [py.ret ?a ≫= ?k] => rewrite (bind_ret a k)
  end.

Section shaped_lemmas.
Import py argparse behaviour.
Context (P : string → Prop) {A B : Type}.

Lemma shaped_bind (m : io A) (k : A → io B) :
  shaped P m → (∀ a, m = ([], Ok a) → shaped P (k a)) → shaped P (m ≫= k).
Proof.
  rewrite bind_unfold. destruct m as [o [a | e |]]; cbn; [| done ..].
  intros -> Hk. specialize (Hk a eq_refl). by destruct (k a).
Qed.

(** The same, with what is known of the value returned. *)
Lemma shaped_bind_post (m : io A) (k : A → io B) (Q : B → Prop) :
  shaped P m →
  (∀ a, m = ([], Ok a) → shaped P (k a) ∧ ∀ o b, k a = (o, Ok b) → Q b) →
  shaped P (m ≫= k) ∧ ∀ o b, m ≫= k = (o, Ok b) → Q b.
Proof.
  intros Hm Hk. split.
  - apply shaped_bind; [done |]. intros a Ha. by apply Hk.
  - destruct m as [o1 [a | e |]]; [| done ..]. cbn in Hm. subst o1.
    rewrite bind_nil. by apply Hk.
Qed.

Lemma shaped_error (self : ArgumentParser) (e : usage_error) :
  P (prog self) → shaped P (@error A self e).
Proof. intros HP. right. split; [done |]. eauto. Qed.

Lemma shaped_catch (self : ArgumentParser) (m : io A) :
  P (prog self) → shaped P m →
  shaped P (catch_argument_error m (λ err, error self err)).
Proof.
  intros HP. destruct m as [o [a | [] |]]; cbn; try done.
  intros ->. right. split; [done |]. eauto.
Qed.
End shaped_lemmas.

Section shaped_parse.
Import py argparse parsing behaviour.

Variable P : string → Prop.
Variable self : ArgumentParser.
Hypothesis HP : P (prog self).

Lemma shaped_consume_optional args pattern idx ex i :
  shaped P (consume_optional self args pattern idx ex i).
Proof using HP.
  unfold consume_optional.
  destruct (option_at i idx) as [[[[action |] os] e] |];
    [| by destruct (args !! i) | done].
  assert (Hhelp : ∀ (l : list action_tuple) (k : io (list string * nat)),
    l ≠ [] →
    shaped P (foldr (λ (_ : action_tuple) (k : io unit),
                       HelpAction_call self ;; k)
                    (ret tt) l ;; k)).
  { intros [| t l] k Hl; [done |]. left. split; [done |]. eauto. }
  destruct e as [e |]; [| rewrite bind_ret; by apply Hhelp].
  destruct os as [| c0 [| c1 r]]; try by destruct e.
  destruct (explicit_arguments_spec e action c0 c1 r [])
    as [(u & ->) | (l & -> & Hl)]; [done |].
  rewrite bind_nil. by apply Hhelp.
Qed.

Lemma shaped_take_action action ns0 vals :
  action_shaped P (Some action) → shaped P (take_action action ns0 vals).
Proof using.
  intros Ha. unfold take_action, _get_values, _check_value.
  destruct vals as [| name rest]; [done |].
  destruct (assoc name (_name_parser_map action)) as [f |] eqn:Hf; [| done].
  rewrite !bind_ret. cbn [SubParsersAction_call]. rewrite Hf.
  apply shaped_bind; [by eapply Ha |]. by intros [subns ex].
Qed.

Lemma shaped_consume_positionals args pattern st i :
  action_shaped P (positionals st) →
  shaped P (consume_positionals args pattern st i).
Proof using.
  intros Hpos. unfold consume_positionals.
  destruct (positionals st) as [action |] eqn:Hst; [| done].
  destruct (_match_arguments_partial _ _); [| done].
  apply shaped_bind; [by apply shaped_take_action | done].
Qed.

Lemma consume_positionals_keeps args pattern st i o st' j :
  consume_positionals args pattern st i = (o, Ok (st', j)) →
  action_shaped P (positionals st) → action_shaped P (positionals st').
Proof using.
  unfold consume_positionals.
  destruct (positionals st) as [action |] eqn:Hst;
    [destruct (_match_arguments_partial _ _) |].
  - destruct (take_action _ _ _) as [o' [ns' | e |]]; [| done ..].
    rewrite bind_unfold. cbn. intros [= _ <- _] _. by intros a name f.
  - intros [= _ <- _]. by rewrite Hst.
  - intros [= _ <- _]. by rewrite Hst.
Qed.

Lemma shaped_consume_all args pattern idx fuel : ∀ st i,
  action_shaped P (positionals st) →
  let m := consume_all self args pattern idx fuel st i in
  shaped P m
  ∧ ∀ o st' j, m = (o, Ok (st', j)) → action_shaped P (positionals st').
Proof using HP.
  assert (Hstop : ∀ st i, action_shaped P (positionals st) →
    shaped P (ret (st, i) : io (state * nat))
    ∧ ∀ o st' j, ret (st, i) = (o, Ok (st', j)) →
        action_shaped P (positionals st')).
  { intros st i Hpos. split; [done |]. by intros o st' j [= _ <- _]. }
  induction fuel as [| fuel IH]; intros st i Hpos; cbn [consume_all];
    destruct (_ <=? _)%Z; [done | by apply Hstop | | by apply Hstop].
  set (Q := λ r : state * nat, action_shaped P (positionals r.1)).
  assert (Hgoal : ∀ m : io (state * nat),
    (shaped P m ∧ ∀ o b, m = (o, Ok b) → Q b) →
    shaped P m
    ∧ ∀ o st' j, m = (o, Ok (st', j)) → action_shaped P (positionals st')).
  { intros m [H1 H2]. split; [done |]. intros o st' j H. exact (H2 _ _ H). }
  assert (HIH : ∀ st1 j, action_shaped P (positionals st1) →
    let m := consume_all self args pattern idx fuel st1 j in
    shaped P m ∧ ∀ o b, m = (o, Ok b) → Q b).
  { intros st1 j H1. destruct (IH st1 j H1) as [Ha Hb]. split; [done |].
    intros o [st' j'] H. exact (Hb _ _ _ H). }
  apply Hgoal, shaped_bind_post; [by destruct (List.filter _ _) |].
  intros next _.
  assert (Hrest : ∀ st1 j, action_shaped P (positionals st1) →
    let m :=
      (let '(st2, start_index) :=
         if negb (existsb (Nat.eqb j) (option_indices idx))
         then ({| ns := ns st1;
                  extras := extras st1 ++ drop j (take next args);
                  positionals := positionals st1 |}, next)
         else (st1, j) in
       '(extras', start_index) ←
         consume_optional self args pattern idx (extras st2) start_index;
       consume_all self args pattern idx fuel
         {| ns := ns st2; extras := extras'; positionals := positionals st2 |}
         start_index) in
    shaped P m ∧ ∀ o b, m = (o, Ok b) → Q b).
  { intros st1 j Hpos1. destruct (negb _);
      (apply shaped_bind_post; [apply shaped_consume_optional |]);
      intros [ex' j'] _; by apply HIH. }
  destruct (negb (i =? next)%nat).
  - apply shaped_bind_post.
    { apply shaped_bind; [by apply shaped_consume_positionals |].
      by intros []. }
    intros [[st' pe] again] Hrun.
    assert (Hpos' : action_shaped P (positionals st')).
    { destruct (consume_positionals args pattern st i)
        as [o [[st1 j1] | e |]] eqn:Hc; [| done ..].
      rewrite bind_unfold in Hrun. cbn in Hrun. injection Hrun as _ <- _ _.
      by eapply consume_positionals_keeps. }
    destruct again; [by apply HIH | by apply Hrest].
  - rewrite bind_ret. by apply Hrest.
Qed.

Lemma shaped__parse_known_args args ns0 :
  action_shaped P (_subparsers self) →
  shaped P (_parse_known_args self args ns0).
Proof using HP.
  intros Hsub. unfold _parse_known_args.
  destruct (scan_ok self 0 args) as (pattern & idx & -> & _).
  rewrite bind_nil.
  set (st0 := {| ns := ns0; extras := []; positionals := _subparsers self |}).
  destruct (shaped_consume_all args pattern idx (S (length args)) st0 0 Hsub)
    as [Hshaped Hkeep].
  apply shaped_bind; [done |]. intros [st i] Hrun.
  apply shaped_bind; [apply shaped_consume_positionals; by eapply Hkeep |].
  intros [st' j] _. cbn zeta.
  destruct (positionals st') as [action |]; [| done].
  destruct (required action); [| done]. by apply shaped_error.
Qed.

Lemma shaped_parse_known_args args :
  action_shaped P (_subparsers self) →
  shaped P (parse_known_args self args).
Proof using HP.
  intros Hsub. unfold parse_known_args. cbn zeta.
  apply shaped_bind; [by apply shaped_catch, shaped__parse_known_args |].
  intros [ns' ex] _. by destruct (_unrecognized_args ns').
Qed.

Lemma shaped_parse_args args :
  action_shaped P (_subparsers self) → shaped P (parse_args self args).
Proof using HP.
  intros Hsub. unfold parse_args.
  apply shaped_bind; [by apply shaped_parse_known_args |].
  intros [ns' [| x ex]] _; [done | by apply shaped_error].
Qed.

End shaped_parse.

(** ** More on [parse_cli] *)

Section cli_behaviour.
Import py argparse parsing invariants behaviour.

Lemma shaped_parse_cli (argv : list string) :
  shaped cli_prog (cli.parse_cli argv).
Proof.
  apply shaped_parse_args; [by left |].
  intros a name f [= <-] Hf l.
  destruct (assoc_commands _ _ Hf) as [_ [-> | ->]];
    (apply shaped_parse_known_args; [unfold cli_prog; auto | done]).
Qed.

(** X5. [parse_cli] ends in one of three ways, and prints accordingly:
    it returns a namespace and has printed nothing; or it exits with
    status 0 after one help text; or it exits with status 2 after one
    usage line and one error message. The text is that of the main parser
    or of the parser of a sub-command. *)
Theorem parse_cli_exit_discipline (argv : list string) :
  (∃ args, cli.parse_cli argv = ([], Ok args))
  ∨ (∃ p, cli_prog p
       ∧ cli.parse_cli argv = ([PrintHelp p], Raise (SystemExit 0)))
  ∨ (∃ p e, cli_prog p
       ∧ cli.parse_cli argv
         = ([PrintUsage p; PrintError p e], Raise (SystemExit 2))).
Proof.
  destruct (parse_cli_spec argv) as [Hclean _].
  pose proof (shaped_parse_cli argv) as Hshaped.
  destruct (cli.parse_cli argv) as [o [args | e |]]; [| | done].
  - cbn in Hshaped. subst o. eauto.
  - destruct e; try done. cbn in Hshaped.
    destruct Hshaped as [[-> (p & Hp & ->)] | [-> (p & e & Hp & ->)]];
      eauto 10.
Qed.

Lemma parse_optional_help (self : ArgumentParser) (s : string) :
  help_string s →
  s ≠ "--"
  ∧ ∃ os, _parse_optional self s = ret (Some (Some HelpAction, os, None)).
Proof.
  intros [-> | [-> | [-> | [-> | ->]]]]; (split; [done |]);
    eexists; reflexivity.
Qed.

Lemma min_zero (l : list nat) : foldr Nat.min 0%nat l = 0%nat.
Proof. induction l as [| x l IH]; cbn; [done |]. rewrite IH. lia. Qed.

(** A help option at index 0 is consumed first. *)
Lemma consume_all_help_first (self : ArgumentParser) (args : list string)
    (pattern : list pchar) (idx : list (nat * option_tuple)) (os : string)
    (fuel : nat) (st : state) :
  consume_all self args pattern ((0%nat, (Some HelpAction, os, None)) :: idx)
              (S fuel) st 0
  = ([PrintHelp (prog self)], Raise (SystemExit 0)).
Proof.
  cbn [consume_all].
  assert ((Z.of_nat 0 <=? max_option_string_index
             ((0%nat, (Some HelpAction, os, None)) :: idx))%Z = true) as ->.
  { apply Z.leb_le. unfold max_option_string_index, option_indices. cbn. lia. }
  unfold option_indices. cbn [map fst List.filter Nat.leb min_index].
  rewrite bind_ret, min_zero. cbn [Nat.eqb negb]. rewrite bind_ret.
  cbn [existsb Nat.eqb orb negb]. unfold consume_optional.
  cbn [option_at Nat.eqb]. reflexivity.
Qed.

Lemma parse_known_args_help (self : ArgumentParser) (s : string)
    (rest : list string) :
  help_string s →
  parse_known_args self (s :: rest)
  = ([PrintHelp (prog self)], Raise (SystemExit 0)).
Proof.
  intros [Hdash (os & Hos)]%(parse_optional_help self).
  unfold parse_known_args, _parse_known_args. cbn zeta. cbn [scan].
  apply String.eqb_neq in Hdash as ->. rewrite Hos, bind_ret.
  destruct (scan_ok self 1 rest) as (pattern & idx & -> & _).
  rewrite bind_nil, bind_ret. by rewrite consume_all_help_first.
Qed.

(** X6. When the first argument is the help option, in full or
    abbreviated, [parse_cli] prints the help of the main parser and exits
    with status 0, whatever follows on the command line. *)
Theorem parse_cli_help_first (s : string) (rest : list string) :
  help_string s →
  cli.parse_cli (s :: rest) = ([PrintHelp "PlanIt"], Raise (SystemExit 0)).
Proof.
  intros Hs. unfold cli.parse_cli, parse_args.
  by rewrite parse_known_args_help.
Qed.

Lemma parse_cli_help_first_witness :
  cli.parse_cli ["--he"; "remove"; "--"]
  = ([PrintHelp "PlanIt"], Raise (SystemExit 0)).
Proof. apply parse_cli_help_first. unfold help_string. auto. Defined.

(** The first positional goes to the sub-parsers action, with all that
    follows it. *)
Lemma consume_positionals_first (action : SubParsersAction) (s : string)
    (rest : list string) (pattern : list pchar) (st : state) :
  positionals st = Some action → length pattern = length rest →
  consume_positionals (s :: rest) (PA :: pattern) st 0
  = (namespace ← take_action action (ns st) (s :: rest);
     ret ({| ns := namespace; extras := extras st; positionals := None |},
          S (length rest))).
Proof.
  intros Hpos Hlen. unfold consume_positionals. rewrite Hpos.
  cbn [drop _match_arguments_partial skip_dashes length]. rewrite Hlen.
  cbn [take]. by rewrite firstn_all.
Qed.

Lemma parse_known_args_first_raises (s : string) (rest : list string)
    (ns0 : Namespace) (o : list event) (e : exception) :
  positional s →
  take_action cli.commands ns0 (s :: rest) = (o, Raise e) →
  _parse_known_args cli.parser (s :: rest) ns0 = (o, Raise e).
Proof.
  intros [Hdash Hpos] Hrun. unfold _parse_known_args.
  destruct (scan_positional cli.parser s rest Hdash Hpos)
    as (pat & idx & -> & Hlen & Hidx).
  rewrite bind_nil.
  set (st0 := {| ns := ns0; extras := [];
                 positionals := _subparsers cli.parser |}).
  assert (Hinv : consume_positionals (s :: rest) (PA :: pat) st0 0
                 = (o, Raise e)).
  { rewrite (consume_positionals_first cli.commands) by done. cbn [ns st0].
    by rewrite Hrun. }
  cbn [consume_all].
  destruct (Z.of_nat 0 <=? _)%Z eqn:Hcond.
  - assert (Hidx' : Forall (λ p : nat * option_tuple,
              (p.1 < length (s :: rest))%nat ∧ well_formed p.2) idx).
    { eapply Forall_impl; [exact Hidx |]. cbn. intros p [? ?].
      split; [lia | done]. }
    destruct (loop_condition (s :: rest) idx 0 Hidx' Hcond)
      as (_ & x & l & Hfilter).
    rewrite Hfilter. cbn [min_index]. rewrite bind_ret.
    pose proof (min_index_elem x l) as Hin. rewrite <- Hfilter in Hin.
    apply list_elem_of_In, filter_In in Hin as [Hin _].
    apply list_elem_of_In, list_elem_of_fmap in Hin as (p & Hp & Hin).
    rewrite Forall_forall in Hidx. destruct (Hidx p Hin) as [[Hge _] _].
    destruct (Nat.eqb_spec 0 (foldr Nat.min x l)) as [Heq | _]; [lia |].
    cbn [negb]. by rewrite Hinv.
  - rewrite bind_ret. by rewrite Hinv.
Qed.

Lemma subcommand_positional (c : string) : subcommand c → positional c.
Proof. intros [-> | [-> | ->]]; (split; [done | reflexivity]). Qed.

Lemma subcommand_parser (c : string) :
  subcommand c →
  ∃ p, assoc c (_name_parser_map cli.commands) = Some (parse_known_args p)
       ∧ _subparsers p = None ∧ prog p = sub_prog c.
Proof.
  intros [-> | [-> | ->]];
    [exists cli.list_ | exists cli.list_ | exists cli.add]; by repeat split.
Qed.

(** X7. After a sub-command, the help option prints the help of the
    parser of that sub-command, "PlanIt list" for "list" and for its alias
    "ls", "PlanIt add" for "add", and exits with status 0, whatever
    follows. *)
Theorem parse_cli_subcommand_help (c s : string) (rest : list string) :
  subcommand c → help_string s →
  cli.parse_cli (c :: s :: rest)
  = ([PrintHelp (sub_prog c)], Raise (SystemExit 0)).
Proof.
  intros Hc Hs. unfold cli.parse_cli, parse_args, parse_known_args. cbn zeta.
  rewrite (parse_known_args_first_raises c (s :: rest) _
             [PrintHelp (sub_prog c)] (SystemExit 0)); [done | |].
  - by apply subcommand_positional.
  - destruct (subcommand_parser c Hc) as (p & Hp & _ & <-).
    unfold take_action, _get_values, _check_value. rewrite Hp.
    cbn beta iota. repeat io_step. cbn [SubParsersAction_call]. rewrite Hp.
    by rewrite parse_known_args_help.
Qed.

Lemma parse_cli_subcommand_help_witness :
  cli.parse_cli ["ls"; "-h"; "milk"]
  = ([PrintHelp "PlanIt list"], Raise (SystemExit 0)).
Proof.
  apply (parse_cli_subcommand_help "ls" "-h" ["milk"]).
  - unfold subcommand. auto.
  - unfold help_string. auto.
Defined.

Lemma parse_optional_plain (self : ArgumentParser) (s : string) :
  plain s → s ≠ "--" ∧ _parse_optional self s = ret None.
Proof.
  unfold plain, starts_with_dash, _parse_optional.
  destruct s as [| c0 tail]; [done |]. intros Hc. rewrite Hc. split; [| done].
  intros [= -> _]. done.
Qed.

Lemma scan_plain (self : ArgumentParser) (l : list string) : ∀ i,
  Forall plain l → scan self i l = ret (map (λ _, PA) l, []).
Proof.
  induction l as [| s l IH]; intros i Hl; [done |].
  apply Forall_cons in Hl as [Hs Hl].
  destruct (parse_optional_plain self s Hs) as [Hdash Hopt].
  cbn [scan]. apply String.eqb_neq in Hdash as ->.
  by rewrite Hopt, bind_ret, (IH _ Hl), bind_ret.
Qed.

(** A parser without sub-commands returns plain arguments as they are. *)
Lemma leaf_parse_plain (p : ArgumentParser) (l : list string) :
  _subparsers p = None → Forall plain l →
  parse_known_args p l
  = ret ({| attrs := ∅; _unrecognized_args := None |}, l).
Proof.
  intros Hp Hl. unfold parse_known_args, _parse_known_args. cbn zeta.
  rewrite Hp, (scan_plain _ _ _ Hl), bind_ret.
  assert (Hloop : ∀ fuel st, consume_all p l (map (λ _, PA) l) [] fuel st 0
                             = ret (st, 0%nat)).
  { by intros [| fuel] st. }
  rewrite Hloop, bind_ret. unfold consume_positionals. cbn.
  reflexivity.
Qed.

(** X8. Arguments after a sub-command are not accepted: when they are
    strings that do not start with [-], the main parser reports all of
    them, in order, as unrecognized arguments and exits with status 2. *)
Theorem parse_cli_extra_arguments (c : string) (rest : list string) :
  subcommand c → rest ≠ [] → Forall plain rest →
  cli.parse_cli (c :: rest)
  = ([PrintUsage "PlanIt";
      PrintError "PlanIt" (UnrecognizedArguments rest)],
     Raise (SystemExit 2)).
Proof.
  intros Hc Hne Hrest.
  assert (Hplain : Forall plain (c :: rest)).
  { constructor; [| done]. by destruct Hc as [-> | [-> | ->]]. }
  unfold cli.parse_cli, parse_args, parse_known_args, _parse_known_args.
  cbn zeta. rewrite (scan_plain _ _ _ Hplain), bind_ret.
  assert (Hloop : ∀ fuel st,
    consume_all cli.parser (c :: rest) (map (λ _, PA) (c :: rest)) [] fuel st 0
    = ret (st, 0%nat)).
  { by intros [| fuel] st. }
  rewrite Hloop, bind_ret. cbn [map].
  rewrite (consume_positionals_first cli.commands) by (by rewrite ?length_map).
  destruct (subcommand_parser c Hc) as (p & Hp & Hleaf & _).
  unfold take_action, _get_values, _check_value. rewrite Hp.
  cbn beta iota. repeat io_step. cbn [SubParsersAction_call]. rewrite Hp.
  rewrite (leaf_parse_plain p rest Hleaf Hrest). repeat io_step.
  destruct rest as [| r rest]; [done |].
  repeat io_step. cbn. rewrite drop_all. reflexivity.
Qed.

Lemma parse_cli_extra_arguments_witness :
  cli.parse_cli ["add"; "milk"; "2 l"]
  = ([PrintUsage "PlanIt";
      PrintError "PlanIt" (UnrecognizedArguments ["milk"; "2 l"])],
     Raise (SystemExit 2)).
Proof.
  apply parse_cli_extra_arguments.
  - unfold subcommand. auto.
  - discriminate.
  - repeat constructor.
Defined.

(** X9. The namespace that [parse_cli] returns has the attribute
    [command] and no other. *)
Theorem parse_cli_namespace (argv : list string) (out : list event)
    (args : Namespace) :
  cli.parse_cli argv = (out, Ok args) →
  dom (attrs args) = {["command"]} ∧ _unrecognized_args args = None.
Proof.
  unfold cli.parse_cli, parse_args.
  destruct (parse_known_args_spec cli.parser cli_sub_parsers_ok argv)
    as [_ Hok].
  destruct (parse_known_args cli.parser argv) as [o [[ns' ex] | e |]] eqn:Hrun;
    [| done ..].
  destruct (Hok _ _ _ eq_refl) as (-> & Hun & Hcases). rewrite bind_nil.
  destruct ex as [| x ex]; [| by rewrite error_exits].
  intros [= _ <-]. split; [| done].
  destruct Hcases as [[-> _] | (action & i0 & name & [= <-] & _ & _ & -> & _)].
  - unfold default_attrs. cbn [_subparsers cli.parser dest cli.commands].
    apply dom_singleton_L.
  - unfold default_attrs. cbn [_subparsers cli.parser dest cli.commands].
    rewrite dom_insert_L, dom_singleton_L. set_solver.
Qed.

Lemma parse_cli_namespace_witness :
  dom (<["command" := PyStr "ls"]> ({["command" := PyNone]} : gmap string pyval))
  = {["command"]}.
Proof.
  refine (proj1 (parse_cli_namespace ["ls"] []
            {| attrs := <["command" := PyStr "ls"]> {["command" := PyNone]};
               _unrecognized_args := None |} _)).
  vm_compute. reflexivity.
Defined.

End cli_behaviour.

(** ** More on [main] and the script *)

Section main_behaviour.
Import py argparse parsing invariants behaviour script.

(** The four ways in which [main] ends. *)
Lemma main_cases (argv : list string) :
  (argv = [] ∨ argv = ["list"] ∨ argv = ["ls"])
     ∧ main.main argv = ([Print "All Todos:"], Ok tt)
  ∨ argv = ["add"]
     ∧ main.main argv
       = ([], Raise (AssertionError "Adding items not supported"))
  ∨ (∃ p, cli_prog p
       ∧ main.main argv = ([PrintHelp p], Raise (SystemExit 0)))
  ∨ (∃ p e, cli_prog p
       ∧ main.main argv
         = ([PrintUsage p; PrintError p e], Raise (SystemExit 2))).
Proof.
  destruct (parse_cli_spec argv) as [Hclean Hok].
  pose proof (shaped_parse_cli argv) as Hshaped.
  destruct (cli.parse_cli argv) as [o [args | e |]] eqn:Hrun.
  - destruct (Hok _ _ eq_refl) as (-> & [[-> Hc] | (c & -> & Hsub & Hc)]);
      rewrite (main_after_parse _ _ _ Hrun Hc).
    + left. auto.
    + destruct Hsub as [-> | [-> | ->]]; cbn; auto 10.
  - unfold main.main. rewrite Hrun, bind_raise.
    destruct e; try done. cbn in Hshaped.
    destruct Hshaped as [[-> (p & Hp & ->)] | [-> (p & e & Hp & ->)]];
      eauto 10.
  - done.
Qed.

(** X10. [main] returns exactly on the command lines [], ["list"] and
    ["ls"], and then it has printed the header "All Todos:" and nothing
    else. *)
Theorem main_returns_iff (argv : list string) :
  ((∃ out, main.main argv = (out, Ok tt))
   ↔ argv = [] ∨ argv = ["list"] ∨ argv = ["ls"])
  ∧ ∀ out, main.main argv = (out, Ok tt) → out = [Print "All Todos:"].
Proof.
  destruct (main_cases argv)
    as [[Hargv Hrun] | [[-> Hrun] | [(p & _ & Hrun) | (p & e & _ & Hrun)]]];
    rewrite Hrun.
  - split; [split; eauto |]. by intros out [= <-].
  - split; [| done]. split; [by intros [] |].
    intros [H | [H | H]]; discriminate H.
  - split; [| done]. split; [by intros [] |].
    intros [-> | [-> | ->]]; discriminate Hrun.
  - split; [| done]. split; [by intros [] |].
    intros [-> | [-> | ->]]; discriminate Hrun.
Qed.

(** X11. [main] ends on an assertion exactly on the command line
    ["add"]; the message is "Adding items not supported" and nothing has
    been printed. *)
Theorem main_asserts_iff (argv : list string) :
  ((∃ out msg, main.main argv = (out, Raise (AssertionError msg)))
   ↔ argv = ["add"])
  ∧ ∀ out msg, main.main argv = (out, Raise (AssertionError msg)) →
      out = [] ∧ msg = "Adding items not supported".
Proof.
  destruct (main_cases argv)
    as [[Hargv Hrun] | [[-> Hrun] | [(p & _ & Hrun) | (p & e & _ & Hrun)]]];
    rewrite Hrun.
  - split; [| done]. split; [by intros (? & ? & ?) |]. intros ->.
    destruct Hargv as [H | [H | H]]; discriminate H.
  - split; [split; eauto |]. by intros out msg [= <- <-].
  - split; [| done]. split; [by intros (? & ? & ?) |].
    intros ->. discriminate Hrun.
  - split; [| done]. split; [by intros (? & ? & ?) |].
    intros ->. discriminate Hrun.
Qed.

(** X12. Run as a script, the program ends with exit status 0, 1 or 2:
    status 1 exactly when the arguments after the program name are
    ["add"]; status 0 exactly when it has printed the header or a help
    text; status 2 exactly when it has printed a usage line and an error
    message. *)
Theorem script_exit_status (sys_argv : list string) :
  let run := __main__ sys_argv in
  (exit_status run = Some 0 ∨ exit_status run = Some 1
   ∨ exit_status run = Some 2)
  ∧ (exit_status run = Some 1 ↔ drop 1 sys_argv = ["add"])
  ∧ (exit_status run = Some 0
     ↔ output run = [Print "All Todos:"] ∨ ∃ p, output run = [PrintHelp p])
  ∧ (exit_status run = Some 2
     ↔ ∃ p e, output run = [PrintUsage p; PrintError p e]).
Proof.
  unfold __main__, exit_status, outcome, output. cbn zeta.
  destruct (main_cases (drop 1 sys_argv))
    as [[Hargv Hrun] | [[Hargv Hrun] | [(p & _ & Hrun) | (p & e & _ & Hrun)]]];
    rewrite Hrun; cbn [fst snd].
  - repeat split; auto; try done.
    + intros Hadd. rewrite Hadd in Hargv.
      destruct Hargv as [H | [H | H]]; discriminate H.
    + by intros (? & ? & ?).
  - repeat split; auto; try done.
    + by intros [? | [? ?]].
    + by intros (? & ? & ?).
  - repeat split; eauto; try done.
    + intros Hadd. rewrite Hadd in Hrun. discriminate Hrun.
    + by intros (? & ? & ?).
  - repeat split; eauto; try done.
    + intros Hadd. rewrite Hadd in Hrun. discriminate Hrun.
    + by intros [? | [? ?]].
Qed.

End main_behaviour.
